(** * Chess strategy simulations (CSC532 Assignment 1): search, evaluation,
    opening book, random play and result statistics.

    Two variants of the program live in the repository:
    - [Assignment-1-Chess/ChatGPT-4o-Version/main.py]   (module [ChatGPT])
    - [Assignment-1-Chess/GoogleSearch-Version/main.py] (module [Google])

    Both use python-chess as the rules engine.  The engine is the external
    collaborator: it is modelled as a record [Rules] of the board queries the
    programs call, and a board is modelled by its move stack (every board of
    the programs is a [chess.Board()] created at the standard start, so the
    move stack determines the position). *)

From Stdlib Require Import String ZArith QArith List Bool Lia Permutation Sorted.
Import ListNotations.
Open Scope string_scope.
Open Scope list_scope.
Open Scope Z_scope.

(* ------------------------------------------------------------------ *)
(** ** The python-chess collaborator *)

(** A move, as its UCI string ([move.uci()]). *)
Definition move := string.

(** A board created by [chess.Board()], as its [move_stack]. *)
Record board := mk_board { move_stack : list move }.

Definition start : board := mk_board [].

(** [board.push(move)] appends to the move stack. *)
Definition push (m : move) (b : board) : board :=
  mk_board (move_stack b ++ [m]).

(** [board.pop()]: raises [IndexError] on an empty stack ([None]). *)
Definition pop (b : board) : option board :=
  match move_stack b with
  | [] => None
  | _ :: _ => Some (mk_board (removelast (move_stack b)))
  end.

(** [chess.WHITE = True], [chess.BLACK = False]. *)
Definition WHITE : bool := true.
Definition BLACK : bool := false.

(** [board.turn]: White moves after an even number of plies. *)
Definition turn (b : board) : bool := Nat.even (length (move_stack b)).

(** [board.fullmove_number]: starts at 1, incremented after each Black move. *)
Definition fullmove_number (b : board) : nat := (1 + Nat.div2 (length (move_stack b)))%nat.

Inductive piece_type := PAWN | KNIGHT | BISHOP | ROOK | QUEEN | KING.

Record piece := mk_piece { piece_kind : piece_type; piece_color : bool }.

(** [chess.SQUARES] = [range(64)]. *)
Definition SQUARES : list nat := seq 0 64%nat.

(** The queries of python-chess the two programs use. *)
Record Rules := {
  legal_moves : board -> list move;
  is_game_over : board -> bool;
  is_checkmate : board -> bool;
  is_stalemate : board -> bool;
  is_insufficient_material : board -> bool;
  can_claim_fifty_moves : board -> bool;
  can_claim_threefold_repetition : board -> bool;
  gives_check : board -> move -> bool;
  is_capture : board -> move -> bool;
  piece_at : board -> nat -> option piece;
  has_castling_rights : board -> bool -> bool;
  (** [board.result(claim_draw=...)] *)
  result : board -> bool -> string
}.

(** The part of the python-chess contract the search relies on: a board that
    is not over has a legal move. *)
Definition moves_when_live (R : Rules) : Prop :=
  forall b, is_game_over R b = false -> legal_moves R b <> [].

(** python-chess never reports a checkmate that is also a stalemate or a
    position with insufficient material (a mate needs mating material). *)
Definition draws_exclude_mate (R : Rules) : Prop :=
  forall b, is_checkmate R b = true ->
            is_stalemate R b = false /\ is_insufficient_material R b = false.

(* ------------------------------------------------------------------ *)
(** ** Scores: a totally preordered type extended with [-inf] and [+inf] *)

Section Order.

Variable V : Type.
Variable le : V -> V -> bool.
Hypothesis le_refl : forall x, le x x = true.
Hypothesis le_trans : forall x y z, le x y = true -> le y z = true -> le x z = true.
Hypothesis le_total : forall x y, le x y = false -> le y x = true.

(** Python numbers together with [float('-inf')] / [np.inf]. *)
Inductive ext := NegInf | Fin (v : V) | PosInf.

Definition ext_le (x y : ext) : bool :=
  match x, y with
  | NegInf, _ => true
  | _, PosInf => true
  | Fin a, Fin c => le a c
  | _, _ => false
  end.

Definition ext_lt (x y : ext) : bool := negb (ext_le y x).

Definition ext_eqv (x y : ext) : bool := ext_le x y && ext_le y x.

(** Python's [max(x, y)]: [y] replaces [x] only when [y > x]. *)
Definition py_max (x y : ext) : ext := if ext_lt x y then y else x.

(** Python's [min(x, y)]: [y] replaces [x] only when [y < x]. *)
Definition py_min (x y : ext) : ext := if ext_lt y x then y else x.

Lemma ext_le_refl x : ext_le x x = true.
Proof. destruct x; simpl; auto. Qed.

Lemma ext_le_trans x y z :
  ext_le x y = true -> ext_le y z = true -> ext_le x z = true.
Proof. destruct x, y, z; simpl; eauto; discriminate. Qed.

Lemma ext_le_total x y : ext_le x y = false -> ext_le y x = true.
Proof. destruct x, y; simpl; auto; discriminate. Qed.

Lemma le_py_max t x y : ext_le t (py_max x y) = ext_le t x || ext_le t y.
Proof.
  unfold py_max, ext_lt.
  destruct (ext_le y x) eqn:Hyx; simpl.
  - destruct (ext_le t x) eqn:Htx; simpl; auto.
    destruct (ext_le t y) eqn:Hty; auto.
    rewrite (ext_le_trans _ _ _ Hty Hyx) in Htx; discriminate.
  - pose proof (ext_le_total _ _ Hyx) as Hxy.
    destruct (ext_le t x) eqn:Htx; simpl; auto.
    apply (ext_le_trans _ _ _ Htx Hxy).
Qed.

Lemma le_py_min t x y : ext_le t (py_min x y) = ext_le t x && ext_le t y.
Proof.
  unfold py_min, ext_lt.
  destruct (ext_le x y) eqn:Hxy; simpl.
  - destruct (ext_le t x) eqn:Htx; simpl; auto.
    symmetry; apply (ext_le_trans _ _ _ Htx Hxy).
  - pose proof (ext_le_total _ _ Hxy) as Hyx.
    destruct (ext_le t y) eqn:Hty; simpl; auto using andb_true_r.
    + rewrite (ext_le_trans _ _ _ Hty Hyx); reflexivity.
    + rewrite andb_false_r; reflexivity.
Qed.

Lemma le_fold_max t l acc :
  ext_le t (fold_left py_max l acc) = ext_le t acc || existsb (ext_le t) l.
Proof.
  revert acc; induction l as [|x l IH]; intros acc; simpl.
  - rewrite orb_false_r; reflexivity.
  - rewrite IH, le_py_max, orb_assoc; reflexivity.
Qed.

Lemma le_fold_min t l acc :
  ext_le t (fold_left py_min l acc) = ext_le t acc && forallb (ext_le t) l.
Proof.
  revert acc; induction l as [|x l IH]; intros acc; simpl.
  - rewrite andb_true_r; reflexivity.
  - rewrite IH, le_py_min, andb_assoc; reflexivity.
Qed.

(** [v] and [m] agree inside the window [(a, c]]: they lie on the same side of
    every threshold in it.  With the full window this is equivalence. *)
Definition agree (a c v m : ext) : Prop :=
  forall t, ext_lt a t = true -> ext_le t c = true -> ext_le t v = ext_le t m.

Lemma agree_full v m : agree NegInf PosInf v m -> ext_eqv v m = true.
Proof.
  intros H; unfold ext_eqv; apply andb_true_intro; split.
  - destruct v as [| x |]; [reflexivity | |];
      (rewrite <- H; [apply ext_le_refl | reflexivity | reflexivity]).
  - destruct m as [| y |]; [reflexivity | |];
      (rewrite H; [apply ext_le_refl | reflexivity | reflexivity]).
Qed.

Lemma agree_trans_right a c v m m' :
  agree a c v m -> (forall t, ext_le t m = ext_le t m') -> agree a c v m'.
Proof. intros H E t H1 H2; rewrite <- E; auto. Qed.

(** A finite score: neither [-inf] nor [+inf]. *)
Definition is_fin (x : ext) : bool := match x with Fin _ => true | _ => false end.

(** The root's strict improvement test: a larger score for White, a smaller
    one for Black. *)
Definition root_better (white : bool) (e best : ext) : bool :=
  if white then ext_lt best e else ext_lt e best.

Lemma ext_lt_le_trans a b c : ext_lt a b = true -> ext_le b c = true -> ext_lt a c = true.
Proof.
  unfold ext_lt; intros H1 H2; apply negb_true_iff in H1; apply negb_true_iff.
  destruct (ext_le c a) eqn:E; [|reflexivity].
  rewrite (ext_le_trans _ _ _ H2 E) in H1; discriminate.
Qed.

Lemma ext_le_lt_trans a b c : ext_le a b = true -> ext_lt b c = true -> ext_lt a c = true.
Proof.
  unfold ext_lt; intros H1 H2; apply negb_true_iff in H2; apply negb_true_iff.
  destruct (ext_le c a) eqn:E; [|reflexivity].
  rewrite (ext_le_trans _ _ _ E H1) in H2; discriminate.
Qed.

Lemma ext_lt_le a b : ext_lt a b = true -> ext_le a b = true.
Proof. unfold ext_lt; intros H; apply negb_true_iff, ext_le_total in H; exact H. Qed.

Lemma ext_not_lt a b : ext_lt a b = false -> ext_le b a = true.
Proof. unfold ext_lt; intros H; apply negb_false_iff in H; exact H. Qed.

Lemma root_better_trans w a b c :
  root_better w a b = true -> root_better w b c = true -> root_better w a c = true.
Proof.
  destruct w; simpl; intros H1 H2.
  - exact (ext_lt_le_trans _ _ _ H2 (ext_lt_le _ _ H1)).
  - exact (ext_lt_le_trans _ _ _ H1 (ext_lt_le _ _ H2)).
Qed.

Lemma root_better_neg w a b c :
  root_better w a c = true -> root_better w b c = false -> root_better w a b = true.
Proof.
  destruct w; simpl; intros H1 H2.
  - exact (ext_le_lt_trans _ _ _ (ext_not_lt _ _ H2) H1).
  - exact (ext_lt_le_trans _ _ _ H1 (ext_not_lt _ _ H2)).
Qed.

Lemma fin_gt_neginf x : is_fin x = true -> ext_lt NegInf x = true.
Proof. destruct x; simpl; auto; discriminate. Qed.

Lemma fin_lt_posinf x : is_fin x = true -> ext_lt x PosInf = true.
Proof. destruct x; simpl; auto; discriminate. Qed.

Lemma fold_max_fin l acc :
  is_fin acc = true -> forallb is_fin l = true -> is_fin (fold_left py_max l acc) = true.
Proof.
  revert acc; induction l as [|x l IH]; intros acc Ha Hl; simpl in *; [exact Ha|].
  apply andb_true_iff in Hl as [Hx Hl]; apply IH; [|exact Hl].
  unfold py_max; destruct (ext_lt acc x); assumption.
Qed.

Lemma fold_min_fin l acc :
  is_fin acc = true -> forallb is_fin l = true -> is_fin (fold_left py_min l acc) = true.
Proof.
  revert acc; induction l as [|x l IH]; intros acc Ha Hl; simpl in *; [exact Ha|].
  apply andb_true_iff in Hl as [Hx Hl]; apply IH; [|exact Hl].
  unfold py_min; destruct (ext_lt x acc); assumption.
Qed.

Lemma fold_max_fin_neginf x l :
  forallb is_fin (x :: l) = true -> is_fin (fold_left py_max (x :: l) NegInf) = true.
Proof.
  simpl; intros H; apply andb_true_iff in H as [Hx Hl]; apply fold_max_fin; [|exact Hl].
  destruct x; try discriminate; reflexivity.
Qed.

Lemma fold_min_fin_posinf x l :
  forallb is_fin (x :: l) = true -> is_fin (fold_left py_min (x :: l) PosInf) = true.
Proof.
  simpl; intros H; apply andb_true_iff in H as [Hx Hl]; apply fold_min_fin; [|exact Hl].
  destruct x; try discriminate; reflexivity.
Qed.

End Order.

Arguments NegInf {V}.
Arguments PosInf {V}.
Arguments Fin {V} v.

Arguments ext_le {V} le x y.
Arguments ext_lt {V} le x y.
Arguments ext_eqv {V} le x y.
Arguments py_max {V} le x y.
Arguments py_min {V} le x y.
Arguments agree {V} le a c v m.
Arguments is_fin {V} x.
Arguments root_better {V} le white e best.

(* ------------------------------------------------------------------ *)
(** ** The first best candidate *)

Section FirstBest.

Variable A : Type.
(** [better x y]: [x] strictly improves on [y]. *)
Variable better : A -> A -> bool.
Hypothesis better_trans :
  forall a b c, better a b = true -> better b c = true -> better a c = true.
Hypothesis better_neg :
  forall a b c, better a c = true -> better b c = false -> better a b = true.
Variable f : move -> A.

(** The loop [for m in l: if better(f(m), best): best, bm = f(m), m]. *)
Fixpoint pick (l : list move) (best : A) (bm : option move) : option move :=
  match l with
  | [] => bm
  | x :: r => if better (f x) best then pick r (f x) (Some x) else pick r best bm
  end.

(** [m] is a best element of [l], and the first of the best ones: it
    improves on every earlier element and no later element improves on it. *)
Definition first_best (l : list move) (m : move) : Prop :=
  exists pre post, l = pre ++ m :: post
    /\ (forall x, In x pre -> better (f m) (f x) = true)
    /\ (forall x, In x post -> better (f x) (f m) = false).

Lemma pick_step l :
  forall pre m0, first_best pre m0 ->
  exists m, pick l (f m0) (Some m0) = Some m /\ first_best (pre ++ l) m.
Proof.
  induction l as [|x l IH]; intros pre m0 Hfb; simpl.
  - exists m0; rewrite app_nil_r; auto.
  - destruct Hfb as [p1 [p2 [Hpre [H1 H2]]]].
    destruct (better (f x) (f m0)) eqn:E.
    + destruct (IH (pre ++ [x]) x) as [m [Hm Hf]].
      * exists pre, []; split; [reflexivity|]; split; [|intros ? []].
        intros y Hy; subst pre; apply in_app_iff in Hy; destruct Hy as [Hy|[<-|Hy]].
        -- exact (better_trans _ _ _ E (H1 y Hy)).
        -- exact E.
        -- exact (better_neg _ _ _ E (H2 y Hy)).
      * exists m; rewrite <- app_assoc in Hf; split; [exact Hm|exact Hf].
    + destruct (IH (pre ++ [x]) m0) as [m [Hm Hf]].
      * exists p1, (p2 ++ [x]); split; [subst pre; rewrite <- app_assoc; reflexivity|].
        split; [exact H1|].
        intros y Hy; apply in_app_iff in Hy; destruct Hy as [Hy|[<-|[]]]; [exact (H2 y Hy)|exact E].
      * exists m; rewrite <- app_assoc in Hf; split; [exact Hm|exact Hf].
Qed.

Lemma pick_first init l :
  l <> [] -> (forall x, In x l -> better (f x) init = true) ->
  exists m, pick l init None = Some m /\ first_best l m.
Proof.
  destruct l as [|x l]; [congruence|]; intros _ H; simpl.
  rewrite (H x (or_introl eq_refl)).
  apply (pick_step l [x] x).
  exists [], []; split; [reflexivity|]; split; intros ? [].
Qed.

End FirstBest.

Arguments pick {A} better f l best bm.
Arguments first_best {A} better f l m.

(* ------------------------------------------------------------------ *)
(** ** Python built-ins *)

(** [sum(...)] over a list of integers. *)
Definition py_sum (l : list Z) : Z := fold_right Z.add 0 l.

(** [sorted(l, key=key, reverse=True)]: stable, so elements of equal key keep
    their order.  Insertion sort: [x] goes before the first element whose key
    is not larger than its own. *)
Fixpoint insert_desc {A} (key : A -> Z) (x : A) (l : list A) : list A :=
  match l with
  | [] => [x]
  | y :: ys => if Z.ltb (key x) (key y) then y :: insert_desc key x ys else x :: y :: ys
  end.

Definition sorted_desc {A} (key : A -> Z) (l : list A) : list A :=
  fold_right (insert_desc key) [] l.

(** Python's module-level [random] generator, as the stream of the values its
    next [_randbelow] calls draw (before reduction below the bound). *)
Definition rng := nat -> nat.

Definition randbelow (n : nat) (g : rng) : nat * rng := (Nat.modulo (g O) n, fun k => g (S k)).

(** [random.choice(seq)]: [IndexError] on an empty sequence ([None]). *)
Definition choice {A} (l : list A) (g : rng) : option (A * rng) :=
  match l with
  | [] => None
  | x :: _ => let (k, g') := randbelow (length l) g in Some (nth k l x, g')
  end.

(** Looking up a Python [dict] with string keys, given as its item list. *)
Fixpoint dict_get {A} (d : list (string * A)) (k : string) (default : A) : A :=
  match d with
  | [] => default
  | (k', v) :: d' => if String.eqb k k' then v else dict_get d' k default
  end.

(** A strategy: [board -> move], reading the module-level generator;
    [None] when it raises. *)
Definition strategy := board -> rng -> option (move * rng).

(** [x[i] = v] on a Python list, for an index in range. *)
Fixpoint list_set {A} (l : list A) (i : nat) (v : A) : list A :=
  match l, i with
  | [], _ => []
  | _ :: t, O => v :: t
  | h :: t, S i' => h :: list_set t i' v
  end.

(** [x[i], x[j] = x[j], x[i]] *)
Definition swap_items {A} (x : list A) (i j : nat) (d : A) : list A :=
  let xj := nth j x d in
  let xi := nth i x d in
  list_set (list_set x i xj) j xi.

(** The loop of [random.shuffle(x)]:
    [for i in reversed(range(1, len(x))): j = _randbelow(i + 1); swap]. *)
Fixpoint shuffle_down {A} (i : nat) (x : list A) (d : A) (g : rng) : list A * rng :=
  match i with
  | O => (x, g)
  | S i' =>
      let (j, g') := randbelow (S (S i')) g in
      shuffle_down i' (swap_items x (S i') j d) d g'
  end.

(** [random.shuffle(x)], returning the shuffled list. *)
Definition shuffle {A} (x : list A) (g : rng) : list A * rng :=
  match x with
  | [] => (x, g)
  | d :: _ => shuffle_down (pred (length x)) x d g
  end.

(** The [while not board.is_game_over()] loop of [play_game] (the same in
    both variants), counting the strategy calls. *)
Inductive game_loop (R : Rules) (white black : strategy)
  : board -> rng -> board -> rng -> nat -> Prop :=
| loop_over b g :
    is_game_over R b = true -> game_loop R white black b g b g 0
| loop_ply b g m g1 b' g' n :
    is_game_over R b = false ->
    (if Bool.eqb (turn b) WHITE then white b g else black b g) = Some (m, g1) ->
    game_loop R white black (push m b) g1 b' g' n ->
    game_loop R white black b g b' g' (S n).

(* ------------------------------------------------------------------ *)
(** ** Facts about the collaborator and the built-ins *)

Lemma pop_push m b : pop (push m b) = Some b.
Proof.
  destruct b as [l]; unfold pop, push; simpl.
  destruct (l ++ [m]) eqn:E.
  - destruct l; discriminate.
  - rewrite <- E, removelast_last; reflexivity.
Qed.

Lemma insert_desc_perm {A} (key : A -> Z) x l : Permutation (insert_desc key x l) (x :: l).
Proof.
  induction l as [|y l IH]; simpl; [reflexivity|].
  destruct (Z.ltb (key x) (key y)); [|reflexivity].
  rewrite IH; apply perm_swap.
Qed.

Lemma sorted_desc_perm {A} (key : A -> Z) l : Permutation (sorted_desc key l) l.
Proof.
  induction l as [|x l IH]; simpl; [reflexivity|].
  rewrite insert_desc_perm, IH; reflexivity.
Qed.

Lemma existsb_perm {A} (f : A -> bool) l l' : Permutation l l' -> existsb f l = existsb f l'.
Proof.
  induction 1; simpl; auto.
  - rewrite IHPermutation; reflexivity.
  - rewrite !orb_assoc, (orb_comm (f y)); reflexivity.
  - congruence.
Qed.

Lemma forallb_perm {A} (f : A -> bool) l l' : Permutation l l' -> forallb f l = forallb f l'.
Proof.
  induction 1; simpl; auto.
  - rewrite IHPermutation; reflexivity.
  - rewrite !andb_assoc, (andb_comm (f y)); reflexivity.
  - congruence.
Qed.

(** [Z] with [<=] is a total order. *)
Lemma Zleb_trans x y z : Z.leb x y = true -> Z.leb y z = true -> Z.leb x z = true.
Proof. rewrite !Z.leb_le; lia. Qed.

Lemma Zleb_total x y : Z.leb x y = false -> Z.leb y x = true.
Proof. rewrite Z.leb_le, Z.leb_gt; lia. Qed.

Lemma Zleb_antisym x y : Z.leb x y = true -> Z.leb y x = true -> x = y.
Proof. rewrite !Z.leb_le; lia. Qed.

Ltac zorder := first [ exact Z.leb_refl | exact Zleb_trans | exact Zleb_total ].

Lemma zle_refl (x : ext Z) : ext_le Z.leb x x = true.
Proof. apply ext_le_refl; zorder. Qed.

Lemma zle_trans (x y z : ext Z) :
  ext_le Z.leb x y = true -> ext_le Z.leb y z = true -> ext_le Z.leb x z = true.
Proof. apply ext_le_trans; zorder. Qed.

Lemma zle_max t (x y : ext Z) :
  ext_le Z.leb t (py_max Z.leb x y) = ext_le Z.leb t x || ext_le Z.leb t y.
Proof. apply le_py_max; zorder. Qed.

Lemma zle_min t (x y : ext Z) :
  ext_le Z.leb t (py_min Z.leb x y) = ext_le Z.leb t x && ext_le Z.leb t y.
Proof. apply le_py_min; zorder. Qed.

Lemma zle_fold_max t l (acc : ext Z) :
  ext_le Z.leb t (fold_left (py_max Z.leb) l acc) = ext_le Z.leb t acc || existsb (ext_le Z.leb t) l.
Proof. apply le_fold_max; zorder. Qed.

Lemma zle_fold_min t l (acc : ext Z) :
  ext_le Z.leb t (fold_left (py_min Z.leb) l acc) = ext_le Z.leb t acc && forallb (ext_le Z.leb t) l.
Proof. apply le_fold_min; zorder. Qed.

Lemma zroot_trans w (a b c : ext Z) :
  root_better Z.leb w a b = true -> root_better Z.leb w b c = true -> root_better Z.leb w a c = true.
Proof. apply root_better_trans; zorder. Qed.

Lemma zroot_neg w (a b c : ext Z) :
  root_better Z.leb w a c = true -> root_better Z.leb w b c = false -> root_better Z.leb w a b = true.
Proof. apply root_better_neg; zorder. Qed.

Lemma zeqv_eq (x y : ext Z) : ext_eqv Z.leb x y = true -> x = y.
Proof.
  unfold ext_eqv; destruct x, y; simpl; try discriminate; auto.
  intros H; apply andb_true_iff in H as [H1 H2]; f_equal; apply Zleb_antisym; auto.
Qed.

(* ------------------------------------------------------------------ *)
(** * ChatGPT-4o-Version/main.py *)

Module ChatGPT.

(** [opening_book] *)
Definition opening_book : list (string * list move) :=
  [("e2e4", ["e7e5"; "c7c5"; "e7e6"; "c7c6"]);
   ("d2d4", ["d7d5"; "g8f6"; "e7e6"]);
   ("c2c4", ["e7e5"; "c7c5"; "g8f6"]);
   ("g1f3", ["d7d5"; "g8f6"; "c7c5"])].

Definition first_moves : list move := ["e2e4"; "d2d4"; "c2c4"; "g1f3"].

(** [get_opening_move(board)]: [Some (Some m)] a book move, [Some None] for
    Python's [None], [None] when [random.choice] raises. *)
Definition get_opening_move (b : board) (g : rng) : option (option move * rng) :=
  let moves := move_stack b in
  match moves with
  | [] =>
      match choice first_moves g with
      | None => None
      | Some (m, g') => Some (Some m, g')
      end
  | [m0] =>
      match choice (dict_get opening_book m0 []) g with
      | None => None
      | Some (m, g') => Some (Some m, g')
      end
  | _ => Some (None, g)
  end.

(** [piece_values] *)
Definition piece_values (pt : piece_type) : Z :=
  match pt with
  | PAWN => 100 | KNIGHT => 320 | BISHOP => 330
  | ROOK => 500 | QUEEN => 900 | KING => 20000
  end.

Section WithRules.

Variable R : Rules.

(** [evaluate_board(board)] *)
Definition evaluate_board (b : board) : Z :=
  if is_checkmate R b then
    (if Bool.eqb (turn b) BLACK then 100000 else -100000)
  else if is_stalemate R b || is_insufficient_material R b then 0
  else
    let score :=
      py_sum (map (fun square =>
                     match piece_at R b square with
                     | Some p => piece_values (piece_kind p)
                                 * (if Bool.eqb (piece_color p) WHITE then 1 else -1)
                     | None => 0
                     end) SQUARES) in
    score + Z.of_nat (length (legal_moves R b)) * 5.

(** [move_priority] inside [order_moves] *)
Definition move_priority (b : board) (m : move) : Z :=
  if gives_check R b m then 20 else if is_capture R b m then 10 else 1.

(** [order_moves(board)] *)
Definition order_moves (b : board) : list move :=
  sorted_desc (move_priority b) (legal_moves R b).

Local Abbreviation score := (ext Z).

(** The loop of [minimax] over the ordered moves, given the recursive call
    [child board alpha beta] (the call at [depth - 1] with the roles swapped). *)
Fixpoint minimax_loop (child : board -> score -> score -> option (score * board))
    (is_maximizing : bool) (moves : list move) (best_score alpha beta : score)
    (b : board) : option (score * board) :=
  match moves with
  | [] => Some (best_score, b)
  | m :: rest =>
      match child (push m b) alpha beta with
      | None => None
      | Some (s, b1) =>
          match pop b1 with
          | None => None
          | Some b2 =>
              if is_maximizing then
                let best_score := py_max Z.leb best_score s in
                let alpha := py_max Z.leb alpha best_score in
                if ext_le Z.leb beta alpha then Some (best_score, b2)
                else minimax_loop child is_maximizing rest best_score alpha beta b2
              else
                let best_score := py_min Z.leb best_score s in
                let beta := py_min Z.leb beta best_score in
                if ext_le Z.leb beta alpha then Some (best_score, b2)
                else minimax_loop child is_maximizing rest best_score alpha beta b2
          end
      end
  end.

(** [minimax(board, depth, alpha, beta, is_maximizing)], threading the board;
    [None] if a [pop] raised. *)
Fixpoint minimax (b : board) (depth : nat) (alpha beta : score)
    (is_maximizing : bool) {struct depth} : option (score * board) :=
  match depth with
  | O => Some (Fin (evaluate_board b), b)
  | S d =>
      if is_game_over R b then Some (Fin (evaluate_board b), b)
      else
        minimax_loop (fun b' al be => minimax b' d al be (negb is_maximizing))
          is_maximizing (order_moves b)
          (if is_maximizing then NegInf else PosInf) alpha beta b
  end.

(** The loop of [best_move_minimax] after the book: every child is searched
    with the full window, and a move replaces the best one only when its
    score is strictly larger. *)
Fixpoint root_loop (depth : nat) (moves : list move) (best_score : score)
    (best_move : option move) (b : board) : option (option move * board) :=
  match moves with
  | [] => Some (best_move, b)
  | m :: rest =>
      match minimax (push m b) (pred depth) NegInf PosInf false with
      | None => None
      | Some (s, b1) =>
          match pop b1 with
          | None => None
          | Some b2 =>
              if ext_lt Z.leb best_score s then root_loop depth rest s (Some m) b2
              else root_loop depth rest best_score best_move b2
          end
      end
  end.

(** Python truthiness of a string ([if move:]). *)
Definition truthy (s : string) : bool := negb (String.eqb s "").

(** [best_move_minimax(board, depth)] for a Python [depth >= 1] (the child
    search is at [depth - 1]): the move ([None] for Python's [None]), the
    board afterwards and the generator afterwards; [None] when it raises. *)
Definition best_move_minimax (b : board) (depth : nat) (g : rng)
    : option (option move * board * rng) :=
  let book := if Nat.leb (fullmove_number b) 2 then get_opening_move b g
              else Some (None, g) in
  match book with
  | None => None
  | Some (Some m, g') =>
      if truthy m then Some (Some m, b, g')
      else match root_loop depth (order_moves b) NegInf None b with
           | None => None
           | Some (bm, b') => Some (bm, b', g')
           end
  | Some (None, g') =>
      match root_loop depth (order_moves b) NegInf None b with
      | None => None
      | Some (bm, b') => Some (bm, b', g')
      end
  end.

(** [random_move(board)] *)
Definition random_move (b : board) (g : rng) : option (move * rng) :=
  choice (legal_moves R b) g.

(** The refinement target of the search: exhaustive minimax over the legal
    moves, without pruning. *)
Fixpoint exhaustive_minimax (b : board) (depth : nat) (is_maximizing : bool) : score :=
  match depth with
  | O => Fin (evaluate_board b)
  | S d =>
      if is_game_over R b then Fin (evaluate_board b)
      else
        let scores := map (fun m => exhaustive_minimax (push m b) d (negb is_maximizing))
                          (legal_moves R b) in
        if is_maximizing then fold_left (py_max Z.leb) scores NegInf
        else fold_left (py_min Z.leb) scores PosInf
  end.

(** [play_game(player_white, player_black)]: the code of the final board's
    [board.result()]. *)
Definition result_code (r : string) : Z :=
  if String.eqb r "1-0" then 1 else if String.eqb r "0-1" then -1 else 0.

Definition play_game (white black : strategy) (g : rng) (code : Z) (g' : rng) : Prop :=
  exists b' n, game_loop R white black start g b' g' n /\ code = result_code (result R b' false).

End WithRules.

Section SearchProofs.

Variable R : Rules.

Local Abbreviation score := (ext Z).
Local Abbreviation le := (ext_le Z.leb).

(** What a child call of the loop guarantees: it restores the board and
    agrees with the exhaustive value [F m] of the child inside its window. *)
Definition child_ok (child : board -> score -> score -> option (score * board))
    (F : move -> score) (b0 : board) (m : move) (al be : score) : Prop :=
  exists s, child (push m b0) al be = Some (s, push m b0)
            /\ agree Z.leb al be s (F m).

Lemma lt_not_le a t : ext_lt Z.leb a t = true -> le t a = false.
Proof. unfold ext_lt; destruct (le t a); auto. Qed.

Lemma not_le_lt a t : le t a = false -> ext_lt Z.leb a t = true.
Proof. unfold ext_lt; intros ->; reflexivity. Qed.

(** The maximizing loop: [alpha] is [max(a, best_score)] and the loop never
    leaves the window [(a, beta]] of agreement. *)
Lemma minimax_loop_max child F b0 a beta rest :
  (forall m al, In m rest -> ext_lt Z.leb al beta = true -> child_ok child F b0 m al beta) ->
  forall best alpha M,
  (forall t, le t alpha = le t a || le t best) ->
  ext_lt Z.leb alpha beta = true ->
  agree Z.leb a beta best M ->
  exists v, minimax_loop child true rest best alpha beta b0 = Some (v, b0)
            /\ agree Z.leb a beta v (fold_left (py_max Z.leb) (map F rest) M).
Proof.
  induction rest as [|m rest IH]; intros Hch best alpha M Hinv Hlt Hag; simpl.
  - exists best; split; auto.
  - destruct (Hch m alpha (or_introl eq_refl) Hlt) as [s [Hs Hags]].
    rewrite Hs, pop_push.
    assert (Hinv' : forall t, le t (py_max Z.leb alpha (py_max Z.leb best s))
                              = le t a || le t (py_max Z.leb best s)).
    { intros t; rewrite !zle_max, Hinv.
      destruct (le t a), (le t best), (le t s); reflexivity. }
    assert (Hag' : agree Z.leb a beta (py_max Z.leb best s) (py_max Z.leb M (F m))).
    { intros t Hat Htb; rewrite !zle_max.
      pose proof (lt_not_le _ _ Hat) as Hta.
      destruct (le t alpha) eqn:Htal.
      - rewrite Hinv, Hta in Htal; simpl in Htal.
        rewrite Htal, <- (Hag t Hat Htb), Htal; reflexivity.
      - pose proof (not_le_lt _ _ Htal) as Halt.
        rewrite Hinv, Hta in Htal; simpl in Htal.
        rewrite Htal, <- (Hag t Hat Htb), Htal; simpl.
        apply Hags; auto. }
    destruct (le beta (py_max Z.leb alpha (py_max Z.leb best s))) eqn:Hbr.
    + exists (py_max Z.leb best s); split; [reflexivity|].
      intros t Hat Htb; rewrite zle_fold_max.
      assert (Hbest : le t (py_max Z.leb best s) = true).
      { pose proof (zle_trans _ _ _ Htb Hbr) as H.
        rewrite Hinv', (lt_not_le _ _ Hat) in H; exact H. }
      rewrite Hbest, <- (Hag' t Hat Htb), Hbest; reflexivity.
    + apply IH; auto.
      * intros m' al Hin; apply Hch; right; exact Hin.
      * apply not_le_lt; exact Hbr.
Qed.

(** The minimizing loop: [beta] is [min(c, best_score)]. *)
Lemma minimax_loop_min child F b0 alpha c rest :
  (forall m be, In m rest -> ext_lt Z.leb alpha be = true -> child_ok child F b0 m alpha be) ->
  forall best beta M,
  (forall t, le t beta = le t c && le t best) ->
  ext_lt Z.leb alpha beta = true ->
  agree Z.leb alpha c best M ->
  exists v, minimax_loop child false rest best alpha beta b0 = Some (v, b0)
            /\ agree Z.leb alpha c v (fold_left (py_min Z.leb) (map F rest) M).
Proof.
  induction rest as [|m rest IH]; intros Hch best beta M Hinv Hlt Hag; simpl.
  - exists best; split; auto.
  - destruct (Hch m beta (or_introl eq_refl) Hlt) as [s [Hs Hags]].
    rewrite Hs, pop_push.
    assert (Hinv' : forall t, le t (py_min Z.leb beta (py_min Z.leb best s))
                              = le t c && le t (py_min Z.leb best s)).
    { intros t; rewrite !zle_min, Hinv.
      destruct (le t c), (le t best), (le t s); reflexivity. }
    assert (Hag' : agree Z.leb alpha c (py_min Z.leb best s) (py_min Z.leb M (F m))).
    { intros t Hat Htc; rewrite !zle_min.
      destruct (le t beta) eqn:Htbe.
      - rewrite Hinv, Htc in Htbe; simpl in Htbe.
        rewrite Htbe, <- (Hag t Hat Htc), Htbe; simpl.
        apply Hags; auto.
        rewrite Hinv, Htc, Htbe; reflexivity.
      - rewrite Hinv, Htc in Htbe; simpl in Htbe.
        rewrite Htbe, <- (Hag t Hat Htc), Htbe; reflexivity. }
    destruct (le (py_min Z.leb beta (py_min Z.leb best s)) alpha) eqn:Hbr.
    + exists (py_min Z.leb best s); split; [reflexivity|].
      intros t Hat Htc; rewrite zle_fold_min.
      assert (Hbest : le t (py_min Z.leb best s) = false).
      { destruct (le t (py_min Z.leb best s)) eqn:H; auto.
        assert (Hb : le t (py_min Z.leb beta (py_min Z.leb best s)) = true)
          by (rewrite Hinv', Htc, H; reflexivity).
        pose proof (zle_trans _ _ _ Hb Hbr) as Hta.
        rewrite (lt_not_le _ _ Hat) in Hta; discriminate. }
      rewrite Hbest, <- (Hag' t Hat Htc), Hbest; reflexivity.
    + apply IH; auto.
      * intros m' be Hin; apply Hch; right; exact Hin.
      * apply not_le_lt; exact Hbr.
Qed.

Lemma order_moves_perm b : Permutation (order_moves R b) (legal_moves R b).
Proof. apply sorted_desc_perm. Qed.

(** Alpha-beta agrees with the exhaustive search inside the window, and
    leaves the board as it found it. *)
Lemma minimax_agree depth :
  forall b a c is_max, ext_lt Z.leb a c = true ->
  exists v, minimax R b depth a c is_max = Some (v, b)
            /\ agree Z.leb a c v (exhaustive_minimax R b depth is_max).
Proof.
  induction depth as [|d IH]; intros b a c is_max Hac; simpl.
  - eexists; split; [reflexivity|]. intros t _ _; reflexivity.
  - destruct (is_game_over R b).
    + eexists; split; [reflexivity|]. intros t _ _; reflexivity.
    + set (F := fun m => exhaustive_minimax R (push m b) d (negb is_max)).
      assert (Hperm : Permutation (map F (order_moves R b)) (map F (legal_moves R b)))
        by (apply Permutation_map, order_moves_perm).
      destruct is_max.
      * destruct (minimax_loop_max
                    (fun b' al be => minimax R b' d al be false) F b a c
                    (order_moves R b)) with (best := @NegInf Z) (alpha := a) (M := @NegInf Z)
          as [v [Hv Hag]]; auto.
        -- intros m al _ Hal; unfold child_ok; apply IH; exact Hal.
        -- intros t; simpl; destruct t; simpl; rewrite ?orb_false_r; reflexivity.
        -- intros t _ _; reflexivity.
        -- exists v; split; [exact Hv|].
           eapply agree_trans_right; [exact Hag|]. intros t.
           rewrite !zle_fold_max; f_equal; apply existsb_perm; exact Hperm.
      * destruct (minimax_loop_min
                    (fun b' al be => minimax R b' d al be true) F b a c
                    (order_moves R b)) with (best := @PosInf Z) (beta := c) (M := @PosInf Z)
          as [v [Hv Hag]]; auto.
        -- intros m be _ Hbe; unfold child_ok; apply IH; exact Hbe.
        -- intros t; simpl; destruct t; simpl; rewrite ?andb_true_r; reflexivity.
        -- intros t _ _; reflexivity.
        -- exists v; split; [exact Hv|].
           eapply agree_trans_right; [exact Hag|]. intros t.
           rewrite !zle_fold_min; f_equal; apply forallb_perm; exact Hperm.
Qed.

(** Whatever the window, a search restores the board it was given. *)
Lemma minimax_loop_restores child is_max b0 rest :
  (forall m al be, In m rest -> exists s, child (push m b0) al be = Some (s, push m b0)) ->
  forall best alpha beta,
  exists v, minimax_loop child is_max rest best alpha beta b0 = Some (v, b0).
Proof.
  induction rest as [|m rest IH]; intros Hch best alpha beta; simpl; [eauto|].
  destruct (Hch m alpha beta (or_introl eq_refl)) as [s Hs].
  rewrite Hs, pop_push.
  assert (IH' := IH (fun m' al be Hin => Hch m' al be (or_intror Hin))).
  destruct is_max; [destruct (le beta _)|destruct (le _ alpha)]; eauto.
Qed.

Lemma minimax_restores depth :
  forall b alpha beta is_max, exists v, minimax R b depth alpha beta is_max = Some (v, b).
Proof.
  induction depth as [|d IH]; intros b alpha beta is_max; simpl; [eauto|].
  destruct (is_game_over R b); [eauto|].
  apply minimax_loop_restores; intros m al be _; apply IH.
Qed.

Lemma root_loop_restores depth b0 rest :
  forall best bm, exists r, root_loop R depth rest best bm b0 = Some (r, b0).
Proof.
  induction rest as [|m rest IH]; intros best bm; simpl; [eauto|].
  destruct (minimax_restores (pred depth) (push m b0) NegInf PosInf false) as [s Hs].
  rewrite Hs, pop_push.
  destruct (ext_lt Z.leb best s); apply IH.
Qed.

End SearchProofs.

(** [sum(1 for r in results[scenario] if r == v)] *)
Definition count_result (v : Z) (results : list Z) : Z :=
  py_sum (map (fun _ => 1) (filter (fun r => Z.eqb r v) results)).

(** [count / num_games * 100] (Python's true division, read exactly). *)
Definition rate (count : Z) (num_games : nat) : Q :=
  (inject_Z count / inject_Z (Z.of_nat num_games) * 100)%Q.

(** [win_rates[scenario]]: White win, Black win and draw rates. *)
Definition win_rates (results : list Z) (num_games : nat) : Q * Q * Q :=
  (rate (count_result 1 results) num_games,
   rate (count_result (-1) results) num_games,
   rate (count_result 0 results) num_games).

Lemma choice_in {A} (l : list A) g x g' : choice l g = Some (x, g') -> In x l.
Proof.
  destruct l as [|x0 l]; [discriminate|].
  pose proof (nth_In (x0 :: l) x0
    (Nat.mod_upper_bound (g O) (length (x0 :: l)) ltac:(discriminate))) as Hin.
  unfold choice, randbelow; intros H; injection H; intros _ <-; exact Hin.
Qed.

Lemma choice_some {A} (l : list A) g : l <> [] -> exists x g', choice l g = Some (x, g').
Proof. destruct l; unfold choice, randbelow; [congruence|eauto]. Qed.

Lemma book_entries_truthy m0 m :
  In m (dict_get opening_book m0 []) -> truthy m = true.
Proof.
  simpl; repeat (destruct (String.eqb m0 _)); simpl;
    intros H; repeat (destruct H as [<-|H]; [reflexivity|]); contradiction.
Qed.

(** With two or more moves on the stack the book is silent and
    [best_move_minimax] is its root search, generator untouched. *)
Lemma best_move_after_book R b depth g :
  (2 <= length (move_stack b))%nat ->
  best_move_minimax R b depth g
  = match root_loop R depth (order_moves R b) NegInf None b with
    | Some (bm, b') => Some (bm, b', g)
    | None => None
    end.
Proof.
  intros H; unfold best_move_minimax.
  assert (Hb : (if Nat.leb (fullmove_number b) 2 then get_opening_move b g else Some (None, g))
               = Some (None, g)).
  { unfold get_opening_move.
    destruct (move_stack b) as [|x [|y l]]; simpl in H; try lia.
    destruct (Nat.leb _ 2); reflexivity. }
  rewrite Hb; reflexivity.
Qed.

(** The score [best_move_minimax]'s root loop gets for move [m]: the value of
    [minimax(board, depth - 1, -inf, inf, False)] after pushing [m] (the
    search never fails, see [minimax_restores]). *)
Definition child_score (R : Rules) (b : board) (depth : nat) (m : move) : ext Z :=
  match minimax R (push m b) (pred depth) NegInf PosInf false with
  | Some (s, _) => s
  | None => NegInf
  end.

Lemma root_loop_pick R depth b moves :
  forall best bm,
  root_loop R depth moves best bm b
  = Some (pick (root_better Z.leb WHITE) (child_score R b depth) moves best bm, b).
Proof.
  induction moves as [|m rest IH]; intros best bm; simpl; [reflexivity|].
  destruct (minimax_restores R (pred depth) (push m b) NegInf PosInf false) as [s Hs].
  assert (Hc : child_score R b depth m = s) by (unfold child_score; rewrite Hs; reflexivity).
  rewrite Hs, pop_push, Hc.
  destruct (ext_lt Z.leb best s); apply IH.
Qed.

Lemma minimax_full_window R b depth is_max :
  minimax R b depth NegInf PosInf is_max = Some (exhaustive_minimax R b depth is_max, b).
Proof.
  destruct (minimax_agree R depth b NegInf PosInf is_max eq_refl) as [v [Hv Hag]].
  rewrite Hv; do 2 f_equal; apply zeqv_eq, agree_full; auto; zorder.
Qed.

Lemma exhaustive_fin R (HR : moves_when_live R) depth :
  forall b is_max, is_fin (exhaustive_minimax R b depth is_max) = true.
Proof.
  induction depth as [|d IH]; intros b is_max; simpl; [reflexivity|].
  destruct (is_game_over R b) eqn:Ho; [reflexivity|].
  pose proof (HR b Ho) as Hne.
  assert (Hall : forallb is_fin (map (fun m => exhaustive_minimax R (push m b) d (negb is_max))
                                     (legal_moves R b)) = true).
  { apply forallb_forall; intros x Hx; apply in_map_iff in Hx as [m [<- _]]; apply IH. }
  destruct (legal_moves R b) as [|m0 ms]; [congruence|].
  destruct is_max; [apply fold_max_fin_neginf | apply fold_min_fin_posinf]; exact Hall.
Qed.

(** Past the book, [best_move_minimax] returns the first move of
    [order_moves] whose child score is the largest, whoever is to move. *)
Lemma best_move_first_max R b depth g :
  moves_when_live R -> is_game_over R b = false -> (2 <= length (move_stack b))%nat ->
  exists m, best_move_minimax R b depth g = Some (Some m, b, g)
            /\ first_best (root_better Z.leb WHITE) (child_score R b depth) (order_moves R b) m.
Proof.
  intros HR Ho Hlen.
  rewrite (best_move_after_book R b depth g Hlen), root_loop_pick.
  destruct (pick_first _ (root_better Z.leb WHITE)
              (zroot_trans WHITE) (zroot_neg WHITE)
              (child_score R b depth) NegInf (order_moves R b)) as [m [Hp Hf]].
  - intros He; apply (HR b Ho), Permutation_nil.
    rewrite <- He; apply order_moves_perm.
  - intros x _; apply fin_gt_neginf.
    unfold child_score; rewrite minimax_full_window; apply exhaustive_fin; exact HR.
  - exists m; rewrite Hp; split; [reflexivity|exact Hf].
Qed.

End ChatGPT.

(** [Q] with [<=] is a total preorder (equality up to [Qeq]). *)
Lemma Qleb_refl x : Qle_bool x x = true.
Proof. apply Qle_bool_iff, Qle_refl. Qed.

Lemma Qleb_trans x y z : Qle_bool x y = true -> Qle_bool y z = true -> Qle_bool x z = true.
Proof. rewrite !Qle_bool_iff; apply Qle_trans. Qed.

Lemma Qleb_total x y : Qle_bool x y = false -> Qle_bool y x = true.
Proof.
  intros H; apply Qle_bool_iff, Qlt_le_weak, Qnot_le_lt.
  intros H'; apply Qle_bool_iff in H'; congruence.
Qed.

Ltac qorder := first [ exact Qleb_refl | exact Qleb_trans | exact Qleb_total ].

Lemma qle_refl (x : ext Q) : ext_le Qle_bool x x = true.
Proof. apply ext_le_refl; qorder. Qed.

Lemma qle_trans (x y z : ext Q) :
  ext_le Qle_bool x y = true -> ext_le Qle_bool y z = true -> ext_le Qle_bool x z = true.
Proof. apply ext_le_trans; qorder. Qed.

Lemma qle_max t (x y : ext Q) :
  ext_le Qle_bool t (py_max Qle_bool x y) = ext_le Qle_bool t x || ext_le Qle_bool t y.
Proof. apply le_py_max; qorder. Qed.

Lemma qle_min t (x y : ext Q) :
  ext_le Qle_bool t (py_min Qle_bool x y) = ext_le Qle_bool t x && ext_le Qle_bool t y.
Proof. apply le_py_min; qorder. Qed.

Lemma qle_fold_max t l (acc : ext Q) :
  ext_le Qle_bool t (fold_left (py_max Qle_bool) l acc)
  = ext_le Qle_bool t acc || existsb (ext_le Qle_bool t) l.
Proof. apply le_fold_max; qorder. Qed.

Lemma qle_fold_min t l (acc : ext Q) :
  ext_le Qle_bool t (fold_left (py_min Qle_bool) l acc)
  = ext_le Qle_bool t acc && forallb (ext_le Qle_bool t) l.
Proof. apply le_fold_min; qorder. Qed.

(** Equality of Python numbers read on [ext Q]: [Qeq] on finite values. *)
Lemma qroot_trans w (a b c : ext Q) :
  root_better Qle_bool w a b = true -> root_better Qle_bool w b c = true ->
  root_better Qle_bool w a c = true.
Proof. apply root_better_trans; qorder. Qed.

Lemma qroot_neg w (a b c : ext Q) :
  root_better Qle_bool w a c = true -> root_better Qle_bool w b c = false ->
  root_better Qle_bool w a b = true.
Proof. apply root_better_neg; qorder. Qed.

Definition qext_eq (x y : ext Q) : Prop :=
  match x, y with
  | NegInf, NegInf | PosInf, PosInf => True
  | Fin a, Fin c => (a == c)%Q
  | _, _ => False
  end.

Lemma qeqv_eq (x y : ext Q) : ext_eqv Qle_bool x y = true -> qext_eq x y.
Proof.
  unfold ext_eqv; destruct x, y; simpl; try discriminate; auto.
  intros H; apply andb_true_iff in H as [H1 H2].
  apply Qle_bool_iff in H1, H2; apply Qle_antisym; auto.
Qed.

Lemma qext_eq_fin (x y : ext Q) : qext_eq x y -> is_fin y = true -> is_fin x = true.
Proof. destruct x, y; simpl; tauto. Qed.

(* ------------------------------------------------------------------ *)
(** * GoogleSearch-Version/main.py *)

Module Google.

(** [PIECE_VALUES], in the dict's key order. *)
Definition PIECE_VALUES : list (piece_type * Z) :=
  [(PAWN, 1); (KNIGHT, 3); (BISHOP, 3); (ROOK, 5); (QUEEN, 9); (KING, 100)].

(** [TERMINATIONS] *)
Definition TERMINATIONS : list string :=
  ["is_stalemate"; "is_insufficient_material"; "is_checkmate";
   "can_claim_fifty_moves"; "can_claim_threefold_repetition"].

Definition piece_type_eqb (x y : piece_type) : bool :=
  match x, y with
  | PAWN, PAWN | KNIGHT, KNIGHT | BISHOP, BISHOP
  | ROOK, ROOK | QUEEN, QUEEN | KING, KING => true
  | _, _ => false
  end.

Section WithRules.

Variable R : Rules.

(** [getattr(board, termination)()] *)
Definition termination_test (name : string) (b : board) : bool :=
  if String.eqb name "is_stalemate" then is_stalemate R b
  else if String.eqb name "is_insufficient_material" then is_insufficient_material R b
  else if String.eqb name "is_checkmate" then is_checkmate R b
  else if String.eqb name "can_claim_fifty_moves" then can_claim_fifty_moves R b
  else can_claim_threefold_repetition R b.

(** [get_termination(board)] *)
Definition get_termination (b : board) : option string :=
  let fix scan (ts : list string) :=
    match ts with
    | [] => None
    | t :: ts' => if termination_test t b then Some t else scan ts'
    end in
  scan TERMINATIONS.

(** [board.pieces(piece_type, color)], as the list of its squares. *)
Definition pieces (b : board) (pt : piece_type) (color : bool) : list nat :=
  filter (fun square =>
            match piece_at R b square with
            | Some p => piece_type_eqb (piece_kind p) pt && Bool.eqb (piece_color p) color
            | None => false
            end) SQUARES.

(** [evaluate_board(board)], with the Python floats read as exact
    rationals: the rounding of the float sums ([0.1 * n], [+- 0.5]) is not
    modelled, so a property of these scores carries over to the code when
    it holds for any scores under any total order on them, as the search
    properties do, or when it is about values the floats represent exactly
    (the mate scores and [0]). *)
Definition evaluate_board (b : board) : Q :=
  if is_checkmate R b then (if turn b then -1000 else 1000)%Q
  else if is_stalemate R b || is_insufficient_material R b then 0%Q
  else
    let score :=
      fold_left (fun score '(piece_type, value) =>
                   (score + inject_Z (Z.of_nat (length (pieces b piece_type WHITE)) * value)
                          - inject_Z (Z.of_nat (length (pieces b piece_type BLACK)) * value))%Q)
                PIECE_VALUES 0%Q in
    let n := inject_Z (Z.of_nat (length (legal_moves R b))) in
    let score := (score + (if Bool.eqb (turn b) WHITE then (1 # 10) * n else (-1 # 10) * n))%Q in
    let score := if has_castling_rights R b WHITE then (score + (1 # 2))%Q else score in
    let score := if has_castling_rights R b BLACK then (score - (1 # 2))%Q else score in
    score.

Local Abbreviation score := (ext Q).

(** The [maximizing_player] loop of [minimax], given the recursive call. *)
Fixpoint max_loop (child : board -> score -> score -> option (score * board))
    (moves : list move) (max_eval alpha beta : score) (b : board) : option (score * board) :=
  match moves with
  | [] => Some (max_eval, b)
  | m :: rest =>
      match child (push m b) alpha beta with
      | None => None
      | Some (e, b1) =>
          match pop b1 with
          | None => None
          | Some b2 =>
              let max_eval := py_max Qle_bool max_eval e in
              let alpha := py_max Qle_bool alpha e in
              if ext_le Qle_bool beta alpha then Some (max_eval, b2)
              else max_loop child rest max_eval alpha beta b2
          end
      end
  end.

(** The minimizing loop of [minimax]. *)
Fixpoint min_loop (child : board -> score -> score -> option (score * board))
    (moves : list move) (min_eval alpha beta : score) (b : board) : option (score * board) :=
  match moves with
  | [] => Some (min_eval, b)
  | m :: rest =>
      match child (push m b) alpha beta with
      | None => None
      | Some (e, b1) =>
          match pop b1 with
          | None => None
          | Some b2 =>
              let min_eval := py_min Qle_bool min_eval e in
              let beta := py_min Qle_bool beta e in
              if ext_le Qle_bool beta alpha then Some (min_eval, b2)
              else min_loop child rest min_eval alpha beta b2
          end
      end
  end.

(** [minimax(board, depth, alpha, beta, maximizing_player)]; the loops run
    over [board.legal_moves] (each [push] is undone before the generator
    resumes, so it yields the moves of the current board). *)
Fixpoint minimax (b : board) (depth : nat) (alpha beta : score)
    (maximizing_player : bool) {struct depth} : option (score * board) :=
  match depth with
  | O => Some (Fin (evaluate_board b), b)
  | S d =>
      if is_game_over R b then Some (Fin (evaluate_board b), b)
      else if maximizing_player then
        max_loop (fun b' al be => minimax b' d al be false) (legal_moves R b) NegInf alpha beta b
      else
        min_loop (fun b' al be => minimax b' d al be true) (legal_moves R b) PosInf alpha beta b
  end.

(** The loop of [best_move(board, depth)]: the child is searched with
    [not board.turn] read after the push, and the comparison reads
    [board.turn] after the pop. *)
Fixpoint best_move_loop (depth : nat) (moves : list move) (best_eval : score)
    (best_move : option move) (b : board) : option (option move * board) :=
  match moves with
  | [] => Some (best_move, b)
  | m :: rest =>
      let b1 := push m b in
      match minimax b1 (pred depth) NegInf PosInf (negb (turn b1)) with
      | None => None
      | Some (e, b2) =>
          match pop b2 with
          | None => None
          | Some b3 =>
              if (turn b3 && ext_lt Qle_bool best_eval e)
                 || (negb (turn b3) && ext_lt Qle_bool e best_eval)
              then best_move_loop depth rest e (Some m) b3
              else best_move_loop depth rest best_eval best_move b3
          end
      end
  end.

(** [best_move(board, depth)] for a Python [depth >= 1]. *)
Definition best_move (b : board) (depth : nat) : option (option move * board) :=
  best_move_loop depth (legal_moves R b) (if turn b then NegInf else PosInf) None b.

(** The refinement target: exhaustive minimax over the legal moves. *)
Fixpoint exhaustive_minimax (b : board) (depth : nat) (maximizing_player : bool) : score :=
  match depth with
  | O => Fin (evaluate_board b)
  | S d =>
      if is_game_over R b then Fin (evaluate_board b)
      else if maximizing_player then
        fold_left (py_max Qle_bool)
          (map (fun m => exhaustive_minimax (push m b) d false) (legal_moves R b)) NegInf
      else
        fold_left (py_min Qle_bool)
          (map (fun m => exhaustive_minimax (push m b) d true) (legal_moves R b)) PosInf
  end.

(** [random_move(board)]: shuffle the legal moves, then prefer captures. *)
Definition random_move (b : board) (g : rng) : option (move * rng) :=
  let (legal, g1) := shuffle (legal_moves R b) g in
  let capture_moves := filter (is_capture R b) legal in
  match capture_moves with
  | [] => choice legal g1
  | _ :: _ => choice capture_moves g1
  end.

(** [play_game(white_strategy, black_strategy)]: [(result, termination)]. *)
Definition play_game (white black : strategy) (g : rng)
    (outcome : string * option string) (g' : rng) : Prop :=
  exists b' n, game_loop R white black start g b' g' n
               /\ outcome = (result R b' true, get_termination b').

End WithRules.

Section SearchProofs.

Variable R : Rules.

Local Abbreviation score := (ext Q).
Local Abbreviation le := (ext_le Qle_bool).

Definition child_ok (child : board -> score -> score -> option (score * board))
    (F : move -> score) (b0 : board) (m : move) (al be : score) : Prop :=
  exists s, child (push m b0) al be = Some (s, push m b0)
            /\ agree Qle_bool al be s (F m).

Lemma qlt_not_le a t : ext_lt Qle_bool a t = true -> le t a = false.
Proof. unfold ext_lt; destruct (le t a); auto. Qed.

Lemma qnot_le_lt a t : le t a = false -> ext_lt Qle_bool a t = true.
Proof. unfold ext_lt; intros ->; reflexivity. Qed.

Lemma max_loop_agree child F b0 a beta rest :
  (forall m al, In m rest -> ext_lt Qle_bool al beta = true -> child_ok child F b0 m al beta) ->
  forall best alpha M,
  (forall t, le t alpha = le t a || le t best) ->
  ext_lt Qle_bool alpha beta = true ->
  agree Qle_bool a beta best M ->
  exists v, max_loop child rest best alpha beta b0 = Some (v, b0)
            /\ agree Qle_bool a beta v (fold_left (py_max Qle_bool) (map F rest) M).
Proof.
  induction rest as [|m rest IH]; intros Hch best alpha M Hinv Hlt Hag; simpl.
  - exists best; split; auto.
  - destruct (Hch m alpha (or_introl eq_refl) Hlt) as [s [Hs Hags]].
    rewrite Hs, pop_push.
    assert (Hinv' : forall t, le t (py_max Qle_bool alpha s)
                              = le t a || le t (py_max Qle_bool best s)).
    { intros t; rewrite !qle_max, Hinv.
      destruct (le t a), (le t best), (le t s); reflexivity. }
    assert (Hag' : agree Qle_bool a beta (py_max Qle_bool best s) (py_max Qle_bool M (F m))).
    { intros t Hat Htb; rewrite !qle_max.
      pose proof (qlt_not_le _ _ Hat) as Hta.
      destruct (le t alpha) eqn:Htal.
      - rewrite Hinv, Hta in Htal; simpl in Htal.
        rewrite Htal, <- (Hag t Hat Htb), Htal; reflexivity.
      - pose proof (qnot_le_lt _ _ Htal) as Halt.
        rewrite Hinv, Hta in Htal; simpl in Htal.
        rewrite Htal, <- (Hag t Hat Htb), Htal; simpl.
        apply Hags; auto. }
    destruct (le beta (py_max Qle_bool alpha s)) eqn:Hbr.
    + exists (py_max Qle_bool best s); split; [reflexivity|].
      intros t Hat Htb; rewrite qle_fold_max.
      assert (Hbest : le t (py_max Qle_bool best s) = true).
      { pose proof (qle_trans _ _ _ Htb Hbr) as H.
        rewrite Hinv', (qlt_not_le _ _ Hat) in H; exact H. }
      rewrite Hbest, <- (Hag' t Hat Htb), Hbest; reflexivity.
    + apply IH; auto.
      * intros m' al Hin; apply Hch; right; exact Hin.
      * apply qnot_le_lt; exact Hbr.
Qed.

Lemma min_loop_agree child F b0 alpha c rest :
  (forall m be, In m rest -> ext_lt Qle_bool alpha be = true -> child_ok child F b0 m alpha be) ->
  forall best beta M,
  (forall t, le t beta = le t c && le t best) ->
  ext_lt Qle_bool alpha beta = true ->
  agree Qle_bool alpha c best M ->
  exists v, min_loop child rest best alpha beta b0 = Some (v, b0)
            /\ agree Qle_bool alpha c v (fold_left (py_min Qle_bool) (map F rest) M).
Proof.
  induction rest as [|m rest IH]; intros Hch best beta M Hinv Hlt Hag; simpl.
  - exists best; split; auto.
  - destruct (Hch m beta (or_introl eq_refl) Hlt) as [s [Hs Hags]].
    rewrite Hs, pop_push.
    assert (Hinv' : forall t, le t (py_min Qle_bool beta s)
                              = le t c && le t (py_min Qle_bool best s)).
    { intros t; rewrite !qle_min, Hinv.
      destruct (le t c), (le t best), (le t s); reflexivity. }
    assert (Hag' : agree Qle_bool alpha c (py_min Qle_bool best s) (py_min Qle_bool M (F m))).
    { intros t Hat Htc; rewrite !qle_min.
      destruct (le t beta) eqn:Htbe.
      - pose proof Htbe as Htbe0.
        rewrite Hinv, Htc in Htbe; simpl in Htbe.
        rewrite Htbe, <- (Hag t Hat Htc), Htbe; simpl.
        apply Hags; auto.
      - rewrite Hinv, Htc in Htbe; simpl in Htbe.
        rewrite Htbe, <- (Hag t Hat Htc), Htbe; reflexivity. }
    destruct (le (py_min Qle_bool beta s) alpha) eqn:Hbr.
    + exists (py_min Qle_bool best s); split; [reflexivity|].
      intros t Hat Htc; rewrite qle_fold_min.
      assert (Hbest : le t (py_min Qle_bool best s) = false).
      { destruct (le t (py_min Qle_bool best s)) eqn:H; auto.
        assert (Hb : le t (py_min Qle_bool beta s) = true)
          by (rewrite Hinv', Htc, H; reflexivity).
        pose proof (qle_trans _ _ _ Hb Hbr) as Hta.
        rewrite (qlt_not_le _ _ Hat) in Hta; discriminate. }
      rewrite Hbest, <- (Hag' t Hat Htc), Hbest; reflexivity.
    + apply IH; auto.
      * intros m' be Hin; apply Hch; right; exact Hin.
      * apply qnot_le_lt; exact Hbr.
Qed.

Lemma search_agree depth :
  forall b a c maximizing, ext_lt Qle_bool a c = true ->
  exists v, minimax R b depth a c maximizing = Some (v, b)
            /\ agree Qle_bool a c v (exhaustive_minimax R b depth maximizing).
Proof.
  induction depth as [|d IH]; intros b a c maximizing Hac; simpl.
  - eexists; split; [reflexivity|]. intros t _ _; reflexivity.
  - destruct (is_game_over R b).
    + eexists; split; [reflexivity|]. intros t _ _; reflexivity.
    + destruct maximizing.
      * apply (max_loop_agree (fun b' al be => minimax R b' d al be false)
                 (fun m => exhaustive_minimax R (push m b) d false) b a c (legal_moves R b)).
        -- intros m al _ Hal; unfold child_ok; apply IH; exact Hal.
        -- intros t; simpl; destruct t; simpl; rewrite ?orb_false_r; reflexivity.
        -- exact Hac.
        -- intros t _ _; reflexivity.
      * apply (min_loop_agree (fun b' al be => minimax R b' d al be true)
                 (fun m => exhaustive_minimax R (push m b) d true) b a c (legal_moves R b)).
        -- intros m be _ Hbe; unfold child_ok; apply IH; exact Hbe.
        -- intros t; simpl; destruct t; simpl; rewrite ?andb_true_r; reflexivity.
        -- exact Hac.
        -- intros t _ _; reflexivity.
Qed.

Lemma max_loop_restores child b0 rest :
  (forall m al be, In m rest -> exists s, child (push m b0) al be = Some (s, push m b0)) ->
  forall best alpha beta, exists v, max_loop child rest best alpha beta b0 = Some (v, b0).
Proof.
  induction rest as [|m rest IH]; intros Hch best alpha beta; simpl; [eauto|].
  destruct (Hch m alpha beta (or_introl eq_refl)) as [s Hs].
  rewrite Hs, pop_push.
  assert (IH' := IH (fun m' al be Hin => Hch m' al be (or_intror Hin))).
  destruct (le beta _); eauto.
Qed.

Lemma min_loop_restores child b0 rest :
  (forall m al be, In m rest -> exists s, child (push m b0) al be = Some (s, push m b0)) ->
  forall best alpha beta, exists v, min_loop child rest best alpha beta b0 = Some (v, b0).
Proof.
  induction rest as [|m rest IH]; intros Hch best alpha beta; simpl; [eauto|].
  destruct (Hch m alpha beta (or_introl eq_refl)) as [s Hs].
  rewrite Hs, pop_push.
  assert (IH' := IH (fun m' al be Hin => Hch m' al be (or_intror Hin))).
  destruct (le _ alpha); eauto.
Qed.

Lemma search_restores depth :
  forall b alpha beta maximizing, exists v, minimax R b depth alpha beta maximizing = Some (v, b).
Proof.
  induction depth as [|d IH]; intros b alpha beta maximizing; simpl; [eauto|].
  destruct (is_game_over R b); [eauto|].
  destruct maximizing;
    [apply max_loop_restores | apply min_loop_restores]; intros m al be _; apply IH.
Qed.

Lemma best_move_loop_restores depth b0 rest :
  forall best bm, exists r, best_move_loop R depth rest best bm b0 = Some (r, b0).
Proof.
  induction rest as [|m rest IH]; intros best bm; simpl; [eauto|].
  destruct (search_restores (pred depth) (push m b0) NegInf PosInf (negb (turn (push m b0))))
    as [s Hs].
  rewrite Hs, pop_push.
  destruct (_ || _); apply IH.
Qed.

End SearchProofs.

(** A [collections.Counter] key: a result string, a termination name, or
    Python's [None]. *)
Definition key := option string.

Definition key_eqb (k k' : key) : bool :=
  match k, k' with
  | None, None => true
  | Some x, Some y => String.eqb x y
  | _, _ => false
  end.

(** A [Counter], as its items in insertion order. *)
Definition counter := list (key * nat).

(** [stats[k]] (0 for a missing key). *)
Fixpoint counter_get (c : counter) (k : key) : nat :=
  match c with
  | [] => 0
  | (k', v) :: c' => if key_eqb k k' then v else counter_get c' k
  end.

(** [stats[k] += 1] *)
Fixpoint counter_incr (c : counter) (k : key) : counter :=
  match c with
  | [] => [(k, 1%nat)]
  | (k', v) :: c' => if key_eqb k k' then (k', S v) :: c' else (k', v) :: counter_incr c' k
  end.

(** [run_simulation]'s loop, given the [play_game] outcome of every game. *)
Definition run_simulation (games : list (string * option string)) : counter :=
  fold_left (fun stats '(result, termination) =>
               if key_eqb termination (Some "is_checkmate")
               then counter_incr stats (Some result)
               else counter_incr stats termination)
            games [].

(** [calculate_win_rate(stats)]; [None] on [ZeroDivisionError]. *)
Definition calculate_win_rate (stats : counter) : option (Q * Q * Q) :=
  let white_wins := counter_get stats (Some "1-0") in
  let black_wins := counter_get stats (Some "0-1") in
  let draws := fold_right plus 0%nat
                 (map snd (filter (fun '(term, _) =>
                                     negb (key_eqb term (Some "1-0") || key_eqb term (Some "0-1")))
                                  stats)) in
  let total_games := (white_wins + black_wins + draws)%nat in
  if Nat.eqb total_games 0 then None
  else
    let t := inject_Z (Z.of_nat total_games) in
    Some ((inject_Z (Z.of_nat white_wins) / t * 100)%Q,
          (inject_Z (Z.of_nat black_wins) / t * 100)%Q,
          (inject_Z (Z.of_nat draws) / t * 100)%Q).

(** The score [best_move]'s loop gets for move [m]: the value of
    [minimax(board, depth - 1, -inf, inf, not board.turn)] with [m] pushed
    (the search never fails, see [search_restores]). *)
Definition child_score (R : Rules) (b : board) (depth : nat) (m : move) : ext Q :=
  match minimax R (push m b) (pred depth) NegInf PosInf (negb (turn (push m b))) with
  | Some (e, _) => e
  | None => NegInf
  end.

Lemma best_move_loop_pick R depth b moves :
  forall best bm,
  best_move_loop R depth moves best bm b
  = Some (pick (root_better Qle_bool (turn b)) (child_score R b depth) moves best bm, b).
Proof.
  induction moves as [|m rest IH]; intros best bm; simpl; [reflexivity|].
  destruct (search_restores R (pred depth) (push m b) NegInf PosInf (negb (turn (push m b))))
    as [e He].
  assert (Hc : child_score R b depth m = e) by (unfold child_score; rewrite He; reflexivity).
  rewrite He, pop_push, Hc.
  destruct (turn b); simpl; rewrite ?orb_false_r; destruct (ext_lt Qle_bool _ _); apply IH.
Qed.

Lemma exhaustive_value_fin R (HR : moves_when_live R) depth :
  forall b maximizing, is_fin (exhaustive_minimax R b depth maximizing) = true.
Proof.
  induction depth as [|d IH]; intros b maximizing; simpl; [reflexivity|].
  destruct (is_game_over R b) eqn:Ho; [reflexivity|].
  pose proof (HR b Ho) as Hne.
  assert (Hall : forall flag, forallb is_fin (map (fun m => exhaustive_minimax R (push m b) d flag)
                                                  (legal_moves R b)) = true).
  { intros flag; apply forallb_forall; intros x Hx; apply in_map_iff in Hx as [m [<- _]]; apply IH. }
  destruct (legal_moves R b) as [|m0 ms]; [congruence|].
  destruct maximizing; [apply fold_max_fin_neginf | apply fold_min_fin_posinf]; apply Hall.
Qed.

(** [best_move] returns the first legal move whose child score is the
    largest when White is to move, the smallest when Black is. *)
Lemma best_move_first_best R b depth :
  moves_when_live R -> is_game_over R b = false ->
  exists m, best_move R b depth = Some (Some m, b)
            /\ first_best (root_better Qle_bool (turn b)) (child_score R b depth) (legal_moves R b) m.
Proof.
  intros HR Ho; unfold best_move; rewrite best_move_loop_pick.
  destruct (pick_first _ (root_better Qle_bool (turn b)) (qroot_trans (turn b)) (qroot_neg (turn b))
              (child_score R b depth) (if turn b then NegInf else PosInf) (legal_moves R b))
    as [m [Hp Hf]].
  - exact (HR b Ho).
  - intros x _.
    assert (Hfin : is_fin (child_score R b depth x) = true).
    { unfold child_score.
      destruct (search_agree R (pred depth) (push x b) NegInf PosInf (negb (turn (push x b))) eq_refl)
        as [v [Hv Hag]].
      assert (Hq : qext_eq v (exhaustive_minimax R (push x b) (pred depth) (negb (turn (push x b)))))
        by (apply qeqv_eq, agree_full; auto; qorder).
      rewrite Hv; apply (qext_eq_fin _ _ Hq), exhaustive_value_fin; exact HR. }
    destruct (turn b); simpl; [apply fin_gt_neginf|apply fin_lt_posinf]; exact Hfin.
  - exists m; rewrite Hp; split; [reflexivity|exact Hf].
Qed.

End Google.

(* ------------------------------------------------------------------ *)
(** * A small collaborator to run the programs on *)

(** A three-ply game in UCI moves: four first moves, four replies, then a
    capture or a knight move, after which Black is mated. *)
Definition demo_legal (b : board) : list move :=
  match move_stack b with
  | [] => ["e2e4"; "d2d4"; "c2c4"; "g1f3"]
  | [_] => ["e7e5"; "d7d5"; "g8f6"; "c7c5"]
  | [_; _] => ["e4d5"; "g1f3"]
  | _ => []
  end.

Definition demo_over (b : board) : bool := Nat.leb 3 (length (move_stack b)).

Definition demo : Rules := {|
  legal_moves := demo_legal;
  is_game_over := demo_over;
  is_checkmate := demo_over;
  is_stalemate := fun _ => false;
  is_insufficient_material := fun _ => false;
  can_claim_fifty_moves := fun _ => false;
  can_claim_threefold_repetition := fun _ => false;
  gives_check := fun _ _ => false;
  is_capture := fun _ m => String.eqb m "e4d5";
  piece_at := fun _ sq =>
    if Nat.eqb sq 4 then Some (mk_piece KING WHITE)
    else if Nat.eqb sq 60 then Some (mk_piece KING BLACK) else None;
  has_castling_rights := fun _ _ => false;
  result := fun b _ => if demo_over b then (if turn b then "0-1" else "1-0") else "*"
|}.

(** A collaborator for a Black move past the book: after five plies Black
    chooses between [a7a6] and [d8h4]; either reply ends the game, [d8h4] by
    mating White, [a7a6] in stalemate. *)
Definition demo2_over (b : board) : bool := Nat.leb 6 (length (move_stack b)).

Definition demo2_mate (b : board) : bool :=
  demo2_over b && String.eqb (last (move_stack b) "") "d8h4".

Definition demo2_legal (b : board) : list move :=
  if Nat.eqb (length (move_stack b)) 5 then ["a7a6"; "d8h4"]
  else if Nat.ltb (length (move_stack b)) 5 then ["a2a3"] else [].

Definition demo2 : Rules := {|
  legal_moves := demo2_legal;
  is_game_over := demo2_over;
  is_checkmate := demo2_mate;
  is_stalemate := fun b => demo2_over b && negb (demo2_mate b);
  is_insufficient_material := fun _ => false;
  can_claim_fifty_moves := fun _ => false;
  can_claim_threefold_repetition := fun _ => false;
  gives_check := fun _ _ => false;
  is_capture := fun _ _ => false;
  piece_at := fun _ sq =>
    if Nat.eqb sq 4 then Some (mk_piece KING WHITE)
    else if Nat.eqb sq 60 then Some (mk_piece KING BLACK) else None;
  has_castling_rights := fun _ _ => false;
  result := fun b _ =>
    if demo2_mate b then (if turn b then "0-1" else "1-0")
    else if demo2_over b then "1/2-1/2" else "*"
|}.

(** Five plies into the game, Black to move. *)
Definition demo2_board : board := mk_board ["e2e4"; "e7e5"; "g1f3"; "b8c6"; "f1c4"].

(** The number of games a [Counter] has counted: [sum(stats.values())]. *)
Definition counter_total (c : Google.counter) : nat := fold_right plus 0%nat (map snd c).

(** A collaborator whose game never ends: every position is live and has the
    single legal move [g1f3]. *)
Definition endless : Rules := {|
  legal_moves := fun _ => ["g1f3"];
  is_game_over := fun _ => false;
  is_checkmate := fun _ => false;
  is_stalemate := fun _ => false;
  is_insufficient_material := fun _ => false;
  can_claim_fifty_moves := fun _ => false;
  can_claim_threefold_repetition := fun _ => false;
  gives_check := fun _ _ => false;
  is_capture := fun _ _ => false;
  piece_at := fun _ _ => None;
  has_castling_rights := fun _ _ => false;
  result := fun _ _ => "*"
|}.

Example demo_book_first : ChatGPT.get_opening_move start (fun _ => O) = Some (Some "e2e4", fun k => O).
Proof. reflexivity. Qed.

Example demo_minimax_value :
  option_map fst (ChatGPT.minimax demo start 3 NegInf PosInf true) = Some (Fin 100000).
Proof. vm_compute. reflexivity. Qed.

Lemma demo_live : moves_when_live demo.
Proof.
  intros [st] H; simpl in *; unfold demo_legal, demo_over in *; simpl in *.
  destruct st as [|x [|y [|z st]]]; simpl in *; discriminate.
Qed.

Lemma demo2_live : moves_when_live demo2.
Proof.
  intros [st] H.
  change (demo2_over (mk_board st) = false) in H; change (demo2_legal (mk_board st) <> []).
  unfold demo2_legal, demo2_over in *; cbn [move_stack] in *.
  destruct (Nat.eqb (length st) 5) eqn:E5; [discriminate|].
  destruct (Nat.ltb (length st) 5) eqn:E; [discriminate|].
  apply Nat.eqb_neq in E5; apply Nat.ltb_ge in E; apply Nat.leb_gt in H; lia.
Qed.

(* ------------------------------------------------------------------ *)
(** ** Vocabulary of the further properties *)

(** The [Counter] key [run_simulation] increments for a game: its result
    when the termination is ["is_checkmate"], its termination otherwise. *)
Definition stats_key (game : string * option string) : Google.key :=
  let '(result, termination) := game in
  if Google.key_eqb termination (Some "is_checkmate") then Some result else termination.

(** The number of games that ended in checkmate with result [r0]. *)
Definition mates_count (r0 : string) (games : list (string * option string)) : nat :=
  length (filter (fun '(r, t) => Google.key_eqb t (Some "is_checkmate") && String.eqb r r0) games).

(** [ms] is a line of play from [b]: each move is legal in a position that
    is not over, reached by pushing the moves before it. *)
Fixpoint legal_line (R : Rules) (b : board) (ms : list move) : Prop :=
  match ms with
  | [] => True
  | m :: rest => is_game_over R b = false /\ In m (legal_moves R b) /\ legal_line R (push m b) rest
  end.

(** The board reached from [b] by pushing the moves [ms] in order. *)
Definition play_line (b : board) (ms : list move) : board := fold_left (fun b m => push m b) ms b.

(** [b'] is [b] with the colours swapped: the side to move, the castling
    rights and every piece's colour, the pieces standing on the squares
    permuted by [sigma] (the identity, or the mirror [sq ^ 56]); the game
    status flags and the number of legal moves are the same. *)
Definition colour_swapped (R : Rules) (sigma : nat -> nat) (b b' : board) : Prop :=
  Permutation (map sigma SQUARES) SQUARES
  /\ turn b' = negb (turn b)
  /\ is_checkmate R b' = is_checkmate R b
  /\ is_stalemate R b' = is_stalemate R b
  /\ is_insufficient_material R b' = is_insufficient_material R b
  /\ length (legal_moves R b') = length (legal_moves R b)
  /\ (forall c, has_castling_rights R b' c = has_castling_rights R b (negb c))
  /\ (forall sq, piece_at R b' sq
                 = option_map (fun p => mk_piece (piece_kind p) (negb (piece_color p)))
                              (piece_at R b (sigma sq))).

(** A strategy that only ever returns a legal move of the position. *)
Definition returns_legal (R : Rules) (s : strategy) : Prop :=
  forall b g m g', s b g = Some (m, g') -> In m (legal_moves R b).

(** A collaborator whose positions alternate colours: with an even number
    of plies on the stack White has king [e1], pawn [e2] and Black king
    [e8]; with an odd number the colours are swapped.  The side to move
    keeps its castling rights; every position has the legal move [a2a3]. *)
Definition swap_piece (b : board) (c : bool) : bool :=
  if Nat.even (length (move_stack b)) then c else negb c.

Definition swapdemo : Rules := {|
  legal_moves := fun _ => ["a2a3"];
  is_game_over := fun _ => false;
  is_checkmate := fun _ => false;
  is_stalemate := fun _ => false;
  is_insufficient_material := fun _ => false;
  can_claim_fifty_moves := fun _ => false;
  can_claim_threefold_repetition := fun _ => false;
  gives_check := fun _ _ => false;
  is_capture := fun _ _ => false;
  piece_at := fun b sq =>
    if Nat.eqb sq 4 then Some (mk_piece KING (swap_piece b WHITE))
    else if Nat.eqb sq 12 then Some (mk_piece PAWN (swap_piece b WHITE))
    else if Nat.eqb sq 60 then Some (mk_piece KING (swap_piece b BLACK)) else None;
  has_castling_rights := fun b c => Bool.eqb c (turn b);
  result := fun _ _ => "*"
|}.

Lemma swapdemo_swapped : colour_swapped swapdemo (fun sq => sq) start (mk_board ["e2e4"]).
Proof.
  split; [rewrite map_id; reflexivity|].
  do 5 (split; [reflexivity|]).
  split; [intros []; reflexivity|].
  intros sq; simpl.
  destruct (Nat.eqb sq 4); [reflexivity|].
  destruct (Nat.eqb sq 12); [reflexivity|].
  destruct (Nat.eqb sq 60); reflexivity.
Qed.

(* ------------------------------------------------------------------ *)
(** * The claims *)

(** C1: alpha-beta [minimax], called with the full window
    [(-inf, +inf)], returns the score of the exhaustive unpruned minimax of
    the same board at the same depth: exactly (integers) in the ChatGPT
    variant, as the same number ([Qeq], floats read as rationals) in the
    Google variant.  It also leaves the board unchanged. *)
Theorem C1_alpha_beta_equals_exhaustive :
  forall (R : Rules) (b : board) (depth : nat) (is_maximizing : bool),
    ChatGPT.minimax R b depth NegInf PosInf is_maximizing
      = Some (ChatGPT.exhaustive_minimax R b depth is_maximizing, b)
    /\ exists v, Google.minimax R b depth NegInf PosInf is_maximizing = Some (v, b)
                 /\ qext_eq v (Google.exhaustive_minimax R b depth is_maximizing).
Proof.
  intros R b depth is_max; split.
  - destruct (ChatGPT.minimax_agree R depth b NegInf PosInf is_max eq_refl) as [v [Hv Hag]].
    rewrite Hv; do 2 f_equal; apply zeqv_eq, agree_full; auto; zorder.
  - destruct (Google.search_agree R depth b NegInf PosInf is_max eq_refl) as [v [Hv Hag]].
    exists v; split; [exact Hv|]; apply qeqv_eq, agree_full; auto; qorder.
Qed.

(** C4: for a Python search depth of at least 1, [minimax] (any window,
    either role) and [best_move] / [best_move_minimax] give back the board
    they were called on, move stack included: every push of the recursion
    is popped before the call returns. *)
Theorem C4_search_restores_board :
  forall (R : Rules) (b : board) (depth : nat) (alpha beta : ext Z)
         (alpha' beta' : ext Q) (is_maximizing : bool) (g : rng),
    (1 <= depth)%nat ->
    (exists v, ChatGPT.minimax R b depth alpha beta is_maximizing = Some (v, b))
    /\ (exists v, Google.minimax R b depth alpha' beta' is_maximizing = Some (v, b))
    /\ (forall mv b' g', ChatGPT.best_move_minimax R b depth g = Some (mv, b', g') -> b' = b)
    /\ (exists mv, Google.best_move R b depth = Some (mv, b)).
Proof.
  intros R b depth alpha beta alpha' beta' is_max g _.
  split; [apply ChatGPT.minimax_restores|].
  split; [apply Google.search_restores|].
  split.
  - intros mv b' g'. unfold ChatGPT.best_move_minimax.
    destruct (ChatGPT.root_loop_restores R depth b (ChatGPT.order_moves R b) NegInf None)
      as [r Hr]; rewrite Hr.
    destruct (Nat.leb _ 2); [destruct (ChatGPT.get_opening_move b g) as [[[m|] g1]|]|];
      [destruct (ChatGPT.truthy m)| | |]; intros H; inversion H; reflexivity.
  - apply Google.best_move_loop_restores.
Qed.

Lemma C4_witness :
  (1 <= 2)%nat /\
  ((exists v, ChatGPT.minimax demo start 2 NegInf PosInf true = Some (v, start))
   /\ (exists v, Google.minimax demo start 2 NegInf PosInf true = Some (v, start))
   /\ (forall mv b' g', ChatGPT.best_move_minimax demo start 2 (fun _ => O) = Some (mv, b', g') -> b' = start)
   /\ (exists mv, Google.best_move demo start 2 = Some (mv, start))).
Proof.
  split; [lia|].
  exact (C4_search_restores_board demo start 2 NegInf PosInf NegInf PosInf true (fun _ => O)
           ltac:(lia)).
Defined.

(** C3: both evaluators score a checkmate at their mate constant with the
    sign of the player who delivered it (the side not to move; positive is
    good for White): +100000 / +1000 when Black is mated, -100000 / -1000
    when White is mated; a stalemate or insufficient-material position, of
    any material, scores exactly 0. *)
Theorem C3_terminal_scores :
  forall (R : Rules), draws_exclude_mate R ->
  forall b : board,
    (is_checkmate R b = true ->
       ChatGPT.evaluate_board R b
         = (if Bool.eqb (negb (turn b)) WHITE then 100000 else -100000)
       /\ Google.evaluate_board R b
         = (if Bool.eqb (negb (turn b)) WHITE then 1000 else -1000)%Q)
    /\ (is_stalemate R b = true \/ is_insufficient_material R b = true ->
       ChatGPT.evaluate_board R b = 0 /\ Google.evaluate_board R b = 0%Q).
Proof.
  intros R Hx b; split.
  - intros Hm; unfold ChatGPT.evaluate_board, Google.evaluate_board; rewrite Hm.
    destruct (turn b); split; reflexivity.
  - intros Hd.
    destruct (is_checkmate R b) eqn:Hm.
    + destruct (Hx b Hm) as [H1 H2]; destruct Hd; congruence.
    + unfold ChatGPT.evaluate_board, Google.evaluate_board; rewrite Hm.
      assert (Hor : (is_stalemate R b || is_insufficient_material R b) = true)
        by (apply orb_true_iff; exact Hd).
      rewrite Hor; split; reflexivity.
Qed.

Lemma C3_witness :
  draws_exclude_mate demo /\
  ((is_checkmate demo (mk_board ["e2e4"; "d7d5"; "e4d5"]) = true ->
      ChatGPT.evaluate_board demo (mk_board ["e2e4"; "d7d5"; "e4d5"])
        = (if Bool.eqb (negb (turn (mk_board ["e2e4"; "d7d5"; "e4d5"]))) WHITE then 100000 else -100000)
      /\ Google.evaluate_board demo (mk_board ["e2e4"; "d7d5"; "e4d5"])
        = (if Bool.eqb (negb (turn (mk_board ["e2e4"; "d7d5"; "e4d5"]))) WHITE then 1000 else -1000)%Q)
   /\ (is_stalemate demo (mk_board ["e2e4"; "d7d5"; "e4d5"]) = true
       \/ is_insufficient_material demo (mk_board ["e2e4"; "d7d5"; "e4d5"]) = true ->
       ChatGPT.evaluate_board demo (mk_board ["e2e4"; "d7d5"; "e4d5"]) = 0
       /\ Google.evaluate_board demo (mk_board ["e2e4"; "d7d5"; "e4d5"]) = 0%Q)).
Proof.
  assert (H : draws_exclude_mate demo) by (intros b _; split; reflexivity).
  split; [exact H|].
  exact (C3_terminal_scores demo H (mk_board ["e2e4"; "d7d5"; "e4d5"])).
Defined.

(** C10: when the move stack holds exactly one move and that move is not a
    key of [opening_book], [get_opening_move] raises ([random.choice] of the
    empty default list), and so does [best_move_minimax] (it consults the
    book since [fullmove_number] is 1). *)
Theorem C10_single_unbooked_move_raises :
  forall (R : Rules) (m : move) (g : rng) (depth : nat),
    ~ In m (map fst ChatGPT.opening_book) ->
    ChatGPT.get_opening_move (mk_board [m]) g = None
    /\ ChatGPT.best_move_minimax R (mk_board [m]) depth g = None.
Proof.
  intros R m g depth Hm.
  assert (Hget : dict_get ChatGPT.opening_book m [] = []).
  { simpl in *.
    destruct (String.eqb_spec m "e2e4"); [subst; tauto|].
    destruct (String.eqb_spec m "d2d4"); [subst; tauto|].
    destruct (String.eqb_spec m "c2c4"); [subst; tauto|].
    destruct (String.eqb_spec m "g1f3"); [subst; tauto|].
    reflexivity. }
  unfold ChatGPT.best_move_minimax, ChatGPT.get_opening_move; cbn -[dict_get].
  rewrite Hget; split; reflexivity.
Qed.

Lemma C10_witness :
  ~ In "a2a3" (map fst ChatGPT.opening_book) /\
  (ChatGPT.get_opening_move (mk_board ["a2a3"]) (fun _ => O) = None
   /\ ChatGPT.best_move_minimax demo (mk_board ["a2a3"]) 4 (fun _ => O) = None).
Proof.
  assert (H : ~ In "a2a3" (map fst ChatGPT.opening_book)) by (simpl; intuition discriminate).
  split; [exact H|].
  exact (C10_single_unbooked_move_raises demo "a2a3" (fun _ => O) 4 H).
Defined.

(** C5 (amended): once the opening book is silent (two or more moves on the
    stack), [best_move_minimax]'s move and final board do not depend on the
    module-level generator, which it leaves untouched; Google's [best_move]
    takes no generator at all.  In the opening phase the ChatGPT variant draws
    its move with the generator (see the counterexample). *)
Theorem C5_book_free_best_move_deterministic :
  forall (R : Rules) (b : board) (depth : nat) (g1 g2 : rng),
    (2 <= length (move_stack b))%nat ->
    option_map (fun r => fst r) (ChatGPT.best_move_minimax R b depth g1)
    = option_map (fun r => fst r) (ChatGPT.best_move_minimax R b depth g2)
    /\ option_map snd (ChatGPT.best_move_minimax R b depth g1) = option_map (fun _ => g1)
         (ChatGPT.best_move_minimax R b depth g1).
Proof.
  intros R b depth g1 g2 H.
  rewrite !(ChatGPT.best_move_after_book R b depth _ H).
  destruct (ChatGPT.root_loop R depth (ChatGPT.order_moves R b) NegInf None b) as [[bm b']|];
    split; reflexivity.
Qed.

Lemma C5_witness :
  (2 <= length (move_stack (mk_board ["e2e4"; "e7e5"])))%nat /\
  (option_map (fun r => fst r) (ChatGPT.best_move_minimax demo (mk_board ["e2e4"; "e7e5"]) 2 (fun _ => O))
   = option_map (fun r => fst r) (ChatGPT.best_move_minimax demo (mk_board ["e2e4"; "e7e5"]) 2 (fun _ => 1%nat))
   /\ option_map snd (ChatGPT.best_move_minimax demo (mk_board ["e2e4"; "e7e5"]) 2 (fun _ => O))
      = option_map (fun _ => (fun _ => O)) (ChatGPT.best_move_minimax demo (mk_board ["e2e4"; "e7e5"]) 2 (fun _ => O))).
Proof.
  split; [simpl; lia|].
  exact (C5_book_free_best_move_deterministic demo (mk_board ["e2e4"; "e7e5"]) 2
           (fun _ => O) (fun _ => 1%nat) ltac:(simpl; lia)).
Defined.

(** C5 counterexample: two calls of [best_move_minimax] on the starting board
    at depth 4 return different moves when the module-level generator is in
    different states. *)
Lemma C5_counterexample :
  option_map (fun r => fst (fst r)) (ChatGPT.best_move_minimax demo start 4 (fun _ => O))
    = Some (Some "e2e4")
  /\ option_map (fun r => fst (fst r)) (ChatGPT.best_move_minimax demo start 4 (fun _ => 1%nat))
    = Some (Some "d2d4").
Proof. split; vm_compute; reflexivity. Qed.

(** C8: [best_move_minimax] consults its book while [fullmove_number <= 2].
    With two or more moves played it returns exactly its root search's
    result, with the generator untouched.  With an empty stack it returns one
    of the four first moves, and with a one-move stack whose move is a key of
    [opening_book] one of that key's replies, without searching.  With a
    one-move stack whose move is not a key it does not fall back to the
    search: [random.choice] of the empty default list raises, and so do
    [get_opening_move] and [best_move_minimax]. *)
Theorem C8_book_then_search :
  (forall (R : Rules) (m0 : move) (depth : nat) (g : rng),
     ~ In m0 (map fst ChatGPT.opening_book) ->
     ChatGPT.get_opening_move (mk_board [m0]) g = None
     /\ ChatGPT.best_move_minimax R (mk_board [m0]) depth g = None)
  /\ (forall (R : Rules) (depth : nat) (g : rng),
     exists m g', ChatGPT.best_move_minimax R start depth g = Some (Some m, start, g')
                  /\ In m ChatGPT.first_moves)
  /\ (forall (R : Rules) (m0 : move) (depth : nat) (g : rng),
     In m0 (map fst ChatGPT.opening_book) ->
     exists m g', ChatGPT.best_move_minimax R (mk_board [m0]) depth g
                    = Some (Some m, mk_board [m0], g')
                  /\ In m (dict_get ChatGPT.opening_book m0 []))
  /\ (forall (R : Rules) (b : board) (depth : nat) (g : rng),
     (2 <= length (move_stack b))%nat ->
     ChatGPT.best_move_minimax R b depth g
     = match ChatGPT.root_loop R depth (ChatGPT.order_moves R b) NegInf None b with
       | Some (bm, b') => Some (bm, b', g)
       | None => None
       end).
Proof.
  split; [|split; [|split]].
  - intros R m0 depth g Hm.
    assert (Hget : dict_get ChatGPT.opening_book m0 [] = []).
    { simpl in Hm.
      destruct (String.eqb_spec m0 "e2e4"); [subst; tauto|].
      destruct (String.eqb_spec m0 "d2d4"); [subst; tauto|].
      destruct (String.eqb_spec m0 "c2c4"); [subst; tauto|].
      destruct (String.eqb_spec m0 "g1f3"); [subst; tauto|].
      simpl.
      repeat match goal with
             | |- context [String.eqb ?a ?c] =>
                 destruct (String.eqb_spec a c); [congruence|]
             end.
      reflexivity. }
    unfold ChatGPT.best_move_minimax, ChatGPT.get_opening_move; cbn -[dict_get].
    rewrite Hget; split; reflexivity.
  - intros R depth g.
    destruct (ChatGPT.choice_some ChatGPT.first_moves g ltac:(discriminate)) as [m [g' Hc]].
    exists m, g'; split; [|exact (ChatGPT.choice_in _ _ _ _ Hc)].
    unfold ChatGPT.best_move_minimax, ChatGPT.get_opening_move;
      cbn -[choice ChatGPT.first_moves ChatGPT.truthy].
    rewrite Hc.
    assert (Ht : ChatGPT.truthy m = true).
    { apply ChatGPT.choice_in in Hc; simpl in Hc.
      repeat (destruct Hc as [<-|Hc]; [reflexivity|]); contradiction. }
    rewrite Ht; reflexivity.
  - intros R m0 depth g Hk.
    assert (Hne : dict_get ChatGPT.opening_book m0 [] <> []).
    { simpl in Hk; simpl.
      repeat (destruct Hk as [<-|Hk]; [simpl; discriminate|]); contradiction. }
    destruct (ChatGPT.choice_some _ g Hne) as [m [g' Hc]].
    exists m, g'; split; [|exact (ChatGPT.choice_in _ _ _ _ Hc)].
    unfold ChatGPT.best_move_minimax, ChatGPT.get_opening_move; cbn -[dict_get choice ChatGPT.truthy].
    rewrite Hc, (ChatGPT.book_entries_truthy m0 m (ChatGPT.choice_in _ _ _ _ Hc)).
    reflexivity.
  - intros R b depth g H; apply ChatGPT.best_move_after_book; exact H.
Qed.

Lemma C8_witness :
  ~ In "a2a3" (map fst ChatGPT.opening_book)
  /\ In "e2e4" (map fst ChatGPT.opening_book)
  /\ (2 <= length (move_stack (mk_board ["e2e4"; "e7e5"])))%nat
  /\ (ChatGPT.get_opening_move (mk_board ["a2a3"]) (fun _ => O) = None
      /\ ChatGPT.best_move_minimax demo2 (mk_board ["a2a3"]) 2 (fun _ => O) = None)
  /\ (exists m g', ChatGPT.best_move_minimax demo (mk_board ["e2e4"]) 4 (fun _ => O)
                    = Some (Some m, mk_board ["e2e4"], g')
                  /\ In m (dict_get ChatGPT.opening_book "e2e4" [])).
Proof.
  assert (H : ~ In "a2a3" (map fst ChatGPT.opening_book)) by (simpl; intuition discriminate).
  split; [exact H|]. split; [simpl; auto|]. split; [simpl; lia|]. split.
  - exact (proj1 C8_book_then_search demo2 "a2a3" 2%nat (fun _ => O) H).
  - exact (proj1 (proj2 (proj2 C8_book_then_search)) demo "e2e4" 4%nat (fun _ => O)
             ltac:(simpl; auto)).
Defined.

(** C8 counterexample: in the collaborator [demo2], [a2a3] is a legal first
    move, and after it the position is live, its move is not a key of the
    book, and the root search returns the move [a2a3]; yet
    [best_move_minimax] raises instead of delegating to that search. *)
Lemma C8_counterexample :
  In "a2a3" (legal_moves demo2 start)
  /\ is_game_over demo2 (mk_board ["a2a3"]) = false
  /\ ~ In "a2a3" (map fst ChatGPT.opening_book)
  /\ option_map fst (ChatGPT.root_loop demo2 2 (ChatGPT.order_moves demo2 (mk_board ["a2a3"]))
                       NegInf None (mk_board ["a2a3"]))
     = Some (Some "a2a3")
  /\ ChatGPT.best_move_minimax demo2 (mk_board ["a2a3"]) 2 (fun _ => O) = None.
Proof.
  split; [simpl; auto|]. split; [reflexivity|]. split; [simpl; intuition discriminate|].
  split; vm_compute; reflexivity.
Qed.

(* ------------------------------------------------------------------ *)
(** * Counting outcomes *)

Lemma count_result_cons v x l :
  ChatGPT.count_result v (x :: l) = (if Z.eqb x v then 1 else 0) + ChatGPT.count_result v l.
Proof.
  unfold ChatGPT.count_result, py_sum; simpl.
  destruct (Z.eqb x v); reflexivity.
Qed.

Lemma count_result_nonneg v l : 0 <= ChatGPT.count_result v l.
Proof.
  induction l as [|x l IH]; [reflexivity|].
  rewrite count_result_cons; destruct (Z.eqb x v); lia.
Qed.

Lemma count_codes_total outcomes :
  let results := map ChatGPT.result_code outcomes in
  ChatGPT.count_result 1 results + ChatGPT.count_result (-1) results
  + ChatGPT.count_result 0 results = Z.of_nat (length outcomes).
Proof.
  induction outcomes as [|o os IH]; cbn zeta in *; [reflexivity|].
  cbn [map length]; rewrite !count_result_cons, Nat2Z.inj_succ.
  assert (Hx : ChatGPT.result_code o = 1 \/ ChatGPT.result_code o = -1
               \/ ChatGPT.result_code o = 0).
  { unfold ChatGPT.result_code.
    destruct (String.eqb o "1-0"); [|destruct (String.eqb o "0-1")]; auto. }
  destruct Hx as [E|[E|E]]; rewrite E; cbn [Z.eqb Pos.eqb]; lia.
Qed.

Lemma inject_Z_nonzero z : z <> 0 -> ~ (inject_Z z == 0)%Q.
Proof. intros Hz H; apply Hz; unfold Qeq in H; simpl in H; lia. Qed.

Lemma rates_sum (a b c t : Z) :
  a + b + c = t -> t <> 0 ->
  (inject_Z a / inject_Z t * 100 + inject_Z b / inject_Z t * 100
   + inject_Z c / inject_Z t * 100 == 100)%Q.
Proof.
  intros H Ht.
  assert (Hq : (inject_Z t == inject_Z a + inject_Z b + inject_Z c)%Q)
    by (subst t; rewrite !inject_Z_plus; reflexivity).
  pose proof (inject_Z_nonzero t Ht) as Hnz.
  setoid_replace (inject_Z a / inject_Z t * 100 + inject_Z b / inject_Z t * 100
                  + inject_Z c / inject_Z t * 100)%Q
    with ((inject_Z a + inject_Z b + inject_Z c) / inject_Z t * 100)%Q
    by (field; exact Hnz).
  rewrite <- Hq; field; exact Hnz.
Qed.

Lemma key_eqb_eq k k' : Google.key_eqb k k' = true <-> k = k'.
Proof.
  destruct k as [x|], k' as [y|]; simpl; try (split; congruence).
  rewrite String.eqb_eq; split; congruence.
Qed.

Lemma key_eqb_refl k : Google.key_eqb k k = true.
Proof. apply key_eqb_eq; reflexivity. Qed.

Lemma counter_get_notin c k : ~ In k (map fst c) -> Google.counter_get c k = 0%nat.
Proof.
  induction c as [|[k' v] c IH]; simpl; [reflexivity|]; intros Hn.
  destruct (Google.key_eqb k k') eqn:E.
  - apply key_eqb_eq in E; subst; tauto.
  - apply IH; tauto.
Qed.

Lemma counter_incr_keys c k k' :
  In k' (map fst (Google.counter_incr c k)) <-> k' = k \/ In k' (map fst c).
Proof.
  induction c as [|[k1 v] c IH]; simpl; [intuition congruence|].
  destruct (Google.key_eqb k k1) eqn:E; simpl.
  - apply key_eqb_eq in E; subst; intuition congruence.
  - rewrite IH; tauto.
Qed.

Lemma counter_incr_nodup c k :
  NoDup (map fst c) -> NoDup (map fst (Google.counter_incr c k)).
Proof.
  induction c as [|[k1 v] c IH]; simpl; intros Hn.
  - constructor; [tauto|constructor].
  - inversion Hn as [|? ? Hni Hnd]; subst.
    destruct (Google.key_eqb k k1) eqn:E; simpl; constructor; auto.
    rewrite counter_incr_keys; intros [->|Hin]; [|tauto].
    rewrite key_eqb_refl in E; discriminate.
Qed.

Lemma counter_incr_total c k : counter_total (Google.counter_incr c k) = S (counter_total c).
Proof.
  unfold counter_total; induction c as [|[k1 v] c IH]; simpl; [reflexivity|].
  destruct (Google.key_eqb k k1); simpl; [reflexivity|].
  rewrite IH; lia.
Qed.

Lemma run_simulation_invariant games :
  forall acc, NoDup (map fst acc) ->
  let c := fold_left (fun stats '(result, termination) =>
               if Google.key_eqb termination (Some "is_checkmate")
               then Google.counter_incr stats (Some result)
               else Google.counter_incr stats termination) games acc in
  NoDup (map fst c) /\ counter_total c = (counter_total acc + length games)%nat.
Proof.
  induction games as [|[r t] games IH]; intros acc Hn; simpl; [split; [exact Hn|lia]|].
  destruct (Google.key_eqb t (Some "is_checkmate")).
  - destruct (IH (Google.counter_incr acc (Some r)) (counter_incr_nodup _ _ Hn)) as [H1 H2].
    rewrite counter_incr_total in H2; split; [exact H1|lia].
  - destruct (IH (Google.counter_incr acc t) (counter_incr_nodup _ _ Hn)) as [H1 H2].
    rewrite counter_incr_total in H2; split; [exact H1|lia].
Qed.

Lemma run_simulation_ok games :
  NoDup (map fst (Google.run_simulation games))
  /\ counter_total (Google.run_simulation games) = length games.
Proof. exact (run_simulation_invariant games [] (NoDup_nil _)). Qed.

Lemma counter_partition c k1 k2 :
  NoDup (map fst c) -> k1 <> k2 ->
  (Google.counter_get c k1 + Google.counter_get c k2
   + fold_right plus 0%nat
       (map snd (filter (fun '(term, _) =>
                           negb (Google.key_eqb term k1 || Google.key_eqb term k2)) c))
   = counter_total c)%nat.
Proof.
  intros Hn Hk; induction c as [|[k v] c IH]; simpl; [reflexivity|].
  inversion Hn as [|? ? Hni Hnd]; subst; specialize (IH Hnd).
  unfold counter_total in IH |- *; simpl.
  destruct (Google.key_eqb k1 k) eqn:E1.
  - apply key_eqb_eq in E1; subst k.
    assert (E2 : Google.key_eqb k2 k1 = false)
      by (destruct (Google.key_eqb k2 k1) eqn:E; [apply key_eqb_eq in E; congruence|reflexivity]).
    rewrite E2, key_eqb_refl; simpl.
    rewrite (counter_get_notin c k1 Hni) in IH; lia.
  - destruct (Google.key_eqb k2 k) eqn:E2.
    + apply key_eqb_eq in E2; subst k.
      assert (E1' : Google.key_eqb k2 k1 = false)
        by (destruct (Google.key_eqb k2 k1) eqn:E; [apply key_eqb_eq in E; congruence|reflexivity]).
      rewrite E1', key_eqb_refl; simpl.
      rewrite (counter_get_notin c k2 Hni) in IH; lia.
    + assert (F1 : Google.key_eqb k k1 = false)
        by (destruct (Google.key_eqb k k1) eqn:E; [apply key_eqb_eq in E; subst;
            rewrite key_eqb_refl in E1; discriminate|reflexivity]).
      assert (F2 : Google.key_eqb k k2 = false)
        by (destruct (Google.key_eqb k k2) eqn:E; [apply key_eqb_eq in E; subst;
            rewrite key_eqb_refl in E2; discriminate|reflexivity]).
      rewrite F1, F2; simpl; lia.
Qed.

(** C6: for [n > 0] games the three rates are [count / n * 100], each count
    lies in [[0, n]], and the rates sum to exactly 100 (over the rationals:
    the floating-point sum is within rounding of it).  ChatGPT's
    [win_rates] is applied to the [play_game] codes of its [n] games; Google's
    [calculate_win_rate] to the [Counter] that [run_simulation] builds from
    the [(result, termination)] pairs of its [n] games. *)
Theorem C6_rates_sum_to_100 :
  (forall (outcomes : list string) (w bl d : Q),
     (0 < length outcomes)%nat ->
     ChatGPT.win_rates (map ChatGPT.result_code outcomes) (length outcomes) = (w, bl, d) ->
     (w + bl + d == 100)%Q
     /\ (forall v, In v [1; -1; 0] ->
           0 <= ChatGPT.count_result v (map ChatGPT.result_code outcomes)
              <= Z.of_nat (length outcomes)))
  /\ (forall (games : list (string * option string)),
     (0 < length games)%nat ->
     exists w bl d,
       Google.calculate_win_rate (Google.run_simulation games) = Some (w, bl, d)
       /\ (w + bl + d == 100)%Q
       /\ exists cw cb cd : nat,
            (cw + cb + cd = length games)%nat
            /\ cw = Google.counter_get (Google.run_simulation games) (Some "1-0")
            /\ cb = Google.counter_get (Google.run_simulation games) (Some "0-1")
            /\ w = (inject_Z (Z.of_nat cw) / inject_Z (Z.of_nat (length games)) * 100)%Q
            /\ bl = (inject_Z (Z.of_nat cb) / inject_Z (Z.of_nat (length games)) * 100)%Q
            /\ d = (inject_Z (Z.of_nat cd) / inject_Z (Z.of_nat (length games)) * 100)%Q).
Proof.
  split.
  - intros outcomes w bl d Hn Hw.
    pose proof (count_codes_total outcomes) as Ht; simpl in Ht.
    pose proof (count_result_nonneg 1 (map ChatGPT.result_code outcomes)).
    pose proof (count_result_nonneg (-1) (map ChatGPT.result_code outcomes)).
    pose proof (count_result_nonneg 0 (map ChatGPT.result_code outcomes)).
    unfold ChatGPT.win_rates, ChatGPT.rate in Hw; injection Hw as <- <- <-.
    split.
    + apply rates_sum; [exact Ht|lia].
    + intros v Hv; simpl in Hv.
      destruct Hv as [<-|[<-|[<-|[]]]]; lia.
  - intros games Hn.
    destruct (run_simulation_ok games) as [Hnd Htot].
    pose proof (counter_partition _ (Some "1-0") (Some "0-1") Hnd ltac:(congruence)) as Hp.
    unfold Google.calculate_win_rate.
    set (c := Google.run_simulation games) in *.
    set (cd := fold_right plus 0%nat (map snd (filter _ c))) in *.
    assert (Hsum : (Google.counter_get c (Some "1-0") + Google.counter_get c (Some "0-1") + cd
                    = length games)%nat) by lia.
    rewrite Hsum.
    destruct (Nat.eqb (length games) 0) eqn:E; [apply Nat.eqb_eq in E; lia|].
    eexists _, _, _; split; [reflexivity|]; split.
    + apply rates_sum; [rewrite <- Hsum, !Nat2Z.inj_add; reflexivity|lia].
    + exists (Google.counter_get c (Some "1-0")), (Google.counter_get c (Some "0-1")), cd.
      repeat split; exact Hsum.
Qed.

Lemma C6_witness :
  (0 < length ["1-0"; "1/2-1/2"])%nat /\ (0 < length [("0-1", Some "is_checkmate")])%nat /\
  (((fst (fst (ChatGPT.win_rates (map ChatGPT.result_code ["1-0"; "1/2-1/2"]) 2)))
    + snd (fst (ChatGPT.win_rates (map ChatGPT.result_code ["1-0"; "1/2-1/2"]) 2))
    + snd (ChatGPT.win_rates (map ChatGPT.result_code ["1-0"; "1/2-1/2"]) 2) == 100)%Q
   /\ exists w bl d,
       Google.calculate_win_rate (Google.run_simulation [("0-1", Some "is_checkmate")])
         = Some (w, bl, d) /\ (w + bl + d == 100)%Q).
Proof.
  split; [simpl; lia|]. split; [simpl; lia|]. split.
  - exact (proj1 (proj1 C6_rates_sum_to_100 ["1-0"; "1/2-1/2"] _ _ _ ltac:(simpl; lia)
                    ltac:(reflexivity))).
  - destruct (proj2 C6_rates_sum_to_100 [("0-1", Some "is_checkmate")] ltac:(simpl; lia))
      as [w [bl [d [H1 [H2 _]]]]].
    exists w, bl, d; split; [exact H1|exact H2].
Defined.

(* ------------------------------------------------------------------ *)
(** * The game loop *)

Lemma game_loop_facts R white black b g b' g' n :
  game_loop R white black b g b' g' n ->
  is_game_over R b' = true
  /\ length (move_stack b') = (length (move_stack b) + n)%nat
  /\ (is_game_over R b = false -> (1 <= n)%nat).
Proof.
  induction 1 as [b g Hover | b g m g1 b' g' n Hlive Hstep Hrun IH].
  - split; [exact Hover|]; split; [lia|congruence].
  - destruct IH as [H1 [H2 _]]; split; [exact H1|]; split; [|lia].
    simpl in H2; rewrite length_app in H2; simpl in H2; lia.
Qed.

Lemma get_termination_range R b :
  Google.get_termination R b = None
  \/ exists t, Google.get_termination R b = Some t /\ In t Google.TERMINATIONS.
Proof.
  unfold Google.get_termination, Google.TERMINATIONS.
  repeat match goal with |- context [if ?c then _ else _] => destruct c end;
    first [left; reflexivity | right; eexists; split; [reflexivity|simpl; tauto]].
Qed.

Lemma endless_no_run white black b g b' g' n : ~ game_loop endless white black b g b' g' n.
Proof. intros H; induction H as [b g Hover|]; [discriminate Hover|exact IHgame_loop]. Qed.

Lemma demo_random_run :
  exists b' g', game_loop demo (Google.random_move demo) (Google.random_move demo)
                  start (fun _ => O) b' g' 3
                /\ result demo b' true = "1-0"
                /\ Google.get_termination demo b' = Some "is_checkmate".
Proof.
  eexists _, _; split; [|split].
  - eapply loop_ply; [reflexivity|cbv; reflexivity|].
    eapply loop_ply; [reflexivity|cbv; reflexivity|].
    eapply loop_ply; [reflexivity|cbv; reflexivity|].
    apply loop_over; reflexivity.
  - reflexivity.
  - reflexivity.
Qed.

(** C7 (amended): both simulators have no move limit.  A finished run of
    [play_game]'s loop ends on a game-over board, after exactly one strategy
    call per ply (as many as moves on the final board), and at least one call
    when the starting position is live; the termination Google's
    [play_game] reports is [None] or one of [TERMINATIONS], never
    [move-limit]. *)
Theorem C7_play_until_game_over :
  forall (R : Rules) (white black : strategy) (g g' : rng) (b' : board) (n : nat),
    game_loop R white black start g b' g' n ->
    is_game_over R b' = true
    /\ length (move_stack b') = n
    /\ (is_game_over R start = false -> (1 <= n)%nat)
    /\ (Google.get_termination R b' = None
        \/ exists t, Google.get_termination R b' = Some t /\ In t Google.TERMINATIONS).
Proof.
  intros R white black g g' b' n H.
  destruct (game_loop_facts _ _ _ _ _ _ _ _ H) as [H1 [H2 H3]].
  split; [exact H1|]; split; [simpl in H2; lia|]; split; [exact H3|].
  apply get_termination_range.
Qed.

Lemma C7_witness :
  exists b' g', game_loop demo (Google.random_move demo) (Google.random_move demo)
                  start (fun _ => O) b' g' 3
                /\ is_game_over demo b' = true /\ length (move_stack b') = 3%nat.
Proof.
  destruct demo_random_run as [b' [g' [H _]]].
  destruct (C7_play_until_game_over demo _ _ _ _ _ _ H) as [H1 [H2 _]].
  exists b', g'; split; [exact H|split; [exact H1|exact H2]].
Defined.

(** C7 counterexample: there is no move limit to stop a game.  On the demo
    collaborator the random players are called three times and the game ends
    by checkmate, not by a [move-limit] draw; on a collaborator whose game
    never ends, neither [play_game] has any outcome at all. *)
Lemma C7_counterexample :
  (exists b' g', game_loop demo (Google.random_move demo) (Google.random_move demo)
                   start (fun _ => O) b' g' 3
                 /\ Google.get_termination demo b' = Some "is_checkmate"
                 /\ Google.get_termination demo b' <> Some "move-limit")
  /\ (forall (white black : strategy) g o g', ~ Google.play_game endless white black g o g')
  /\ (forall (white black : strategy) g code g', ~ ChatGPT.play_game endless white black g code g').
Proof.
  split; [|split].
  - destruct demo_random_run as [b' [g' [H [_ Ht]]]].
    exists b', g'; split; [exact H|]; split; [exact Ht|rewrite Ht; discriminate].
  - intros white black g o g' [b' [n [H _]]]; exact (endless_no_run _ _ _ _ _ _ _ H).
  - intros white black g code g' [b' [n [H _]]]; exact (endless_no_run _ _ _ _ _ _ _ H).
Qed.

(* ------------------------------------------------------------------ *)
(** * Random moves *)

Lemma list_set_length {A} (l : list A) i v : length (list_set l i v) = length l.
Proof.
  revert i; induction l as [|h t IH]; intros [|i]; simpl; auto.
Qed.

Lemma nth_error_list_set {A} (l : list A) i v n :
  (i < length l)%nat ->
  nth_error (list_set l i v) n = if Nat.eqb n i then Some v else nth_error l n.
Proof.
  revert i n; induction l as [|h t IH]; intros i n Hi; simpl in Hi; [lia|].
  destruct i as [|i], n as [|n]; simpl; auto.
  apply IH; lia.
Qed.

Lemma swap_items_perm {A} (x : list A) i j d :
  (i < length x)%nat -> (j < length x)%nat -> Permutation (swap_items x i j d) x.
Proof.
  intros Hi Hj; symmetry; apply Permutation_nth_error.
  unfold swap_items; split; [rewrite !list_set_length; reflexivity|].
  exists (fun n => if Nat.eqb n j then i else if Nat.eqb n i then j else n); split.
  - intros n1 n2.
    destruct (Nat.eqb_spec n1 j), (Nat.eqb_spec n1 i), (Nat.eqb_spec n2 j), (Nat.eqb_spec n2 i);
      lia.
  - intros n.
    rewrite nth_error_list_set by (rewrite list_set_length; exact Hj).
    rewrite nth_error_list_set by exact Hi.
    destruct (Nat.eqb_spec n j) as [->|Hnj].
    + symmetry; apply nth_error_nth'; exact Hi.
    + destruct (Nat.eqb_spec n i) as [->|Hni]; [|reflexivity].
      symmetry; apply nth_error_nth'; exact Hj.
Qed.

Lemma shuffle_down_perm {A} (d : A) i :
  forall x g, (i < length x)%nat -> Permutation (fst (shuffle_down i x d g)) x.
Proof.
  induction i as [|i IH]; intros x g Hi; simpl; [reflexivity|].
  assert (Hj : (g O mod S (S i) < length x)%nat)
    by (pose proof (Nat.mod_upper_bound (g O) (S (S i)) ltac:(discriminate)); lia).
  pose proof (swap_items_perm x (S i) (g O mod S (S i)) d Hi Hj) as Hp.
  etransitivity; [apply IH|exact Hp].
  unfold swap_items; rewrite !list_set_length; lia.
Qed.

Lemma shuffle_perm {A} (x : list A) g : Permutation (fst (shuffle x g)) x.
Proof.
  destruct x as [|d t]; simpl; [reflexivity|].
  apply (shuffle_down_perm d (length t) (d :: t)); simpl; lia.
Qed.

(** Google's [random_move]: a move of the position, a capture whenever the
    position has one, and some move whenever it has a legal move. *)
Lemma google_random_move_spec R b g :
  (legal_moves R b <> [] -> exists m g', Google.random_move R b g = Some (m, g'))
  /\ (forall m g', Google.random_move R b g = Some (m, g') ->
        In m (legal_moves R b)
        /\ (is_capture R b m = true
            \/ forall c, In c (legal_moves R b) -> is_capture R b c = false)).
Proof.
  unfold Google.random_move.
  destruct (shuffle (legal_moves R b) g) as [legal g1] eqn:Hs.
  pose proof (shuffle_perm (legal_moves R b) g) as Hp; rewrite Hs in Hp; simpl in Hp.
  split.
  - intros Hne.
    destruct (filter (is_capture R b) legal) as [|c cs] eqn:Hf.
    + apply ChatGPT.choice_some; intros ->; apply Hne, Permutation_nil, Hp.
    + apply ChatGPT.choice_some; discriminate.
  - intros m g' Hc.
    destruct (filter (is_capture R b) legal) as [|c cs] eqn:Hf.
    + apply ChatGPT.choice_in in Hc; split; [exact (Permutation_in _ Hp Hc)|right].
      intros c Hin; destruct (is_capture R b c) eqn:Ec; [|reflexivity].
      assert (Hin' : In c (filter (is_capture R b) legal))
        by (apply filter_In; split; [exact (Permutation_in _ (Permutation_sym Hp) Hin)|exact Ec]).
      rewrite Hf in Hin'; contradiction.
    + rewrite <- Hf in Hc; apply ChatGPT.choice_in, filter_In in Hc.
      destruct Hc as [Hin Hcap]; split; [exact (Permutation_in _ Hp Hin)|left; exact Hcap].
Qed.

(** [random.shuffle] draws once per position it swaps, [len(x) - 1] times,
    and reads nothing else of the generator. *)
Lemma shuffle_down_snd {A} (d : A) i :
  forall x g, snd (shuffle_down i x d g) = fun k => g (i + k)%nat.
Proof.
  induction i as [|i IH]; intros x g; simpl; [reflexivity|].
  rewrite IH; reflexivity.
Qed.

Lemma shuffle_down_prefix {A} (d : A) i :
  forall x g h, (forall k, (k < i)%nat -> g k = h k) ->
    fst (shuffle_down i x d g) = fst (shuffle_down i x d h).
Proof.
  induction i as [|i IH]; intros x g h H; simpl; [reflexivity|].
  rewrite (H O ltac:(lia)).
  apply IH; intros k Hk; apply H; lia.
Qed.

Lemma shuffle_snd {A} (x : list A) g :
  snd (shuffle x g) = fun k => g (pred (length x) + k)%nat.
Proof. destruct x as [|d t]; [reflexivity|apply shuffle_down_snd]. Qed.

Lemma shuffle_prefix {A} (x : list A) g h :
  (forall k, (k < pred (length x))%nat -> g k = h k) ->
  fst (shuffle x g) = fst (shuffle x h).
Proof. destruct x as [|d t]; [reflexivity|apply shuffle_down_prefix]. Qed.

(** [random.choice(seq)] returns [seq[k]] when [_randbelow] draws [k]. *)
Lemma choice_at {A} (l : list A) m :
  In m l -> exists k, forall g : rng, g O = k -> option_map fst (choice l g) = Some m.
Proof.
  destruct l as [|c cs]; [contradiction|]; intros Hin.
  destruct (In_nth _ _ c Hin) as [k [Hk Hnth]].
  exists k; intros g Hg; unfold choice, randbelow; rewrite Hg, Nat.mod_small by exact Hk.
  rewrite Hnth; reflexivity.
Qed.

(** Google's [random_move] draws its index with a fresh value of the
    generator, after those of the shuffle. *)
Lemma google_random_move_draw R b g sh g1 :
  shuffle (legal_moves R b) g = (sh, g1) ->
  Permutation sh (legal_moves R b)
  /\ (forall k, g1 k = g (pred (length (legal_moves R b)) + k)%nat)
  /\ (forall c cs, filter (is_capture R b) sh = c :: cs ->
        Google.random_move R b g
        = Some (nth (g1 O mod length (c :: cs)) (c :: cs) c, fun k => g1 (S k)))
  /\ (filter (is_capture R b) sh = [] -> forall m0 rest, sh = m0 :: rest ->
        Google.random_move R b g
        = Some (nth (g1 O mod length (m0 :: rest)) (m0 :: rest) m0, fun k => g1 (S k))).
Proof.
  intros Hs.
  pose proof (shuffle_perm (legal_moves R b) g) as Hp; rewrite Hs in Hp.
  pose proof (shuffle_snd (legal_moves R b) g) as Hg; rewrite Hs in Hg; simpl in Hp, Hg.
  split; [exact Hp|]. split; [intros k; rewrite Hg; reflexivity|].
  unfold Google.random_move; rewrite Hs.
  split.
  - intros c cs Hf; rewrite Hf; reflexivity.
  - intros Hf m0 rest ->; rewrite Hf; reflexivity.
Qed.

(** Every move Google's [random_move] may return is drawn by some state of
    the generator: each capture, and each legal move when there is no
    capture. *)
Lemma google_random_move_reach R b m :
  In m (legal_moves R b) ->
  (is_capture R b m = true \/ forall c, In c (legal_moves R b) -> is_capture R b c = false) ->
  exists g, option_map fst (Google.random_move R b g) = Some m.
Proof.
  intros Hin Hcase.
  set (n := pred (length (legal_moves R b))).
  set (sh := fst (shuffle (legal_moves R b) (fun _ => O))).
  assert (Hp : Permutation sh (legal_moves R b)) by apply shuffle_perm.
  set (l := match filter (is_capture R b) sh with [] => sh | _ :: _ => filter (is_capture R b) sh end).
  assert (Hl : In m l).
  { unfold l; destruct Hcase as [Hc|Hnone].
    - assert (Hf : In m (filter (is_capture R b) sh))
        by (apply filter_In; split; [exact (Permutation_in _ (Permutation_sym Hp) Hin)|exact Hc]).
      destruct (filter (is_capture R b) sh); [contradiction|exact Hf].
    - destruct (filter (is_capture R b) sh) as [|c cs] eqn:Hf;
        [exact (Permutation_in _ (Permutation_sym Hp) Hin)|].
      assert (Hc : In c (filter (is_capture R b) sh)) by (rewrite Hf; left; reflexivity).
      apply filter_In in Hc; destruct Hc as [Hc1 Hc2].
      rewrite (Hnone c (Permutation_in _ Hp Hc1)) in Hc2; discriminate. }
  destruct (choice_at l m Hl) as [k Hk].
  set (g := fun j => if Nat.ltb j n then O else k).
  exists g.
  assert (Hsh : fst (shuffle (legal_moves R b) g) = sh).
  { apply shuffle_prefix; intros j Hj; unfold g.
    destruct (Nat.ltb_spec j n); [reflexivity|unfold n in *; lia]. }
  assert (Hsn : snd (shuffle (legal_moves R b) g) = fun j => g (n + j)%nat) by apply shuffle_snd.
  unfold Google.random_move.
  destruct (shuffle (legal_moves R b) g) as [sh' g1] eqn:Hs; simpl in Hsh, Hsn; subst sh'.
  assert (H0 : g1 O = k) by (rewrite Hsn; unfold g; rewrite Nat.add_0_r, Nat.ltb_irrefl; reflexivity).
  specialize (Hk g1 H0); unfold l in Hk; revert Hk.
  destruct (filter (is_capture R b) sh); intros Hk; exact Hk.
Qed.

(** C9 (amended): both random players draw from the module-level generator
    of [random], never from a source passed to them.  ChatGPT's
    [random_move] returns the legal move at index [g 0 mod n] of the [n]
    legal moves, so every legal move is drawn by some generator state (each
    with probability [1/n] when [g 0] is uniform).  Google's [random_move]
    shuffles the legal moves, reading the first [n - 1] values of the
    generator, and then returns the element at index [g (n - 1) mod k] of the
    [k] captures of the shuffled list, or of the whole shuffled list when it
    has no capture.  So it returns a legal move, a capture whenever the
    position has one, and every capture (every legal move when there is no
    capture) is drawn by some generator state; since the index is drawn with
    a value the shuffle has not read, each is drawn with probability [1/k]
    when the values are independent and uniform. *)
Theorem C9_random_moves :
  (forall (R : Rules) (b : board) (g : rng) (m0 : move) (rest : list move),
     legal_moves R b = m0 :: rest ->
     ChatGPT.random_move R b g
     = Some (nth (g O mod length (m0 :: rest)) (m0 :: rest) m0, fun k => g (S k))
     /\ forall m, In m (m0 :: rest) ->
          exists g', option_map fst (ChatGPT.random_move R b g') = Some m)
  /\ (forall (R : Rules) (b : board) (g : rng),
     (legal_moves R b <> [] -> exists m g', Google.random_move R b g = Some (m, g'))
     /\ (forall m g', Google.random_move R b g = Some (m, g') ->
           In m (legal_moves R b)
           /\ (is_capture R b m = true
               \/ forall c, In c (legal_moves R b) -> is_capture R b c = false))
     /\ (forall sh g1, shuffle (legal_moves R b) g = (sh, g1) ->
           Permutation sh (legal_moves R b)
           /\ (forall k, g1 k = g (pred (length (legal_moves R b)) + k)%nat)
           /\ (forall c cs, filter (is_capture R b) sh = c :: cs ->
                 Google.random_move R b g
                 = Some (nth (g1 O mod length (c :: cs)) (c :: cs) c, fun k => g1 (S k)))
           /\ (filter (is_capture R b) sh = [] -> forall m0 rest, sh = m0 :: rest ->
                 Google.random_move R b g
                 = Some (nth (g1 O mod length (m0 :: rest)) (m0 :: rest) m0,
                         fun k => g1 (S k)))))
  /\ (forall (R : Rules) (b : board) (m : move),
     In m (legal_moves R b) ->
     (is_capture R b m = true \/ forall c, In c (legal_moves R b) -> is_capture R b c = false) ->
     exists g, option_map fst (Google.random_move R b g) = Some m).
Proof.
  split; [|split].
  - intros R b g m0 rest Hl; split.
    + unfold ChatGPT.random_move; rewrite Hl; reflexivity.
    + intros m Hin.
      destruct (In_nth _ _ m0 Hin) as [k [Hk Hnth]].
      exists (fun _ => k); unfold ChatGPT.random_move; rewrite Hl.
      change (Some (nth (k mod length (m0 :: rest)) (m0 :: rest) m0) = Some m).
      rewrite Nat.mod_small by exact Hk; rewrite Hnth; reflexivity.
  - intros R b g.
    destruct (google_random_move_spec R b g) as [H1 H2].
    split; [exact H1|]. split; [exact H2|].
    intros sh g1 Hs; exact (google_random_move_draw R b g sh g1 Hs).
  - exact google_random_move_reach.
Qed.

Lemma C9_witness :
  (ChatGPT.random_move demo start (fun _ => 1%nat) = Some ("d2d4", fun _ => 1%nat)
   /\ exists g', option_map fst (ChatGPT.random_move demo start g') = Some "g1f3")
  /\ exists g, option_map fst (Google.random_move demo (mk_board ["e2e4"; "d7d5"]) g)
               = Some "e4d5".
Proof.
  split.
  - destruct (proj1 C9_random_moves demo start (fun _ => 1%nat) "e2e4" ["d2d4"; "c2c4"; "g1f3"]
                ltac:(reflexivity)) as [H1 H2].
    split; [exact H1|apply H2; simpl; tauto].
  - exact (proj2 (proj2 C9_random_moves) demo (mk_board ["e2e4"; "d7d5"]) "e4d5"
             ltac:(simpl; tauto) (or_introl eq_refl)).
Defined.

(** C9 counterexample: after [1. e4 d5] the demo position has the legal
    moves [e4d5] (a capture) and [g1f3], yet Google's [random_move] returns
    [e4d5] whatever the state of the generator: the draw is not uniform over
    the legal moves. *)
Lemma C9_counterexample :
  is_game_over demo (mk_board ["e2e4"; "d7d5"]) = false
  /\ legal_moves demo (mk_board ["e2e4"; "d7d5"]) = ["e4d5"; "g1f3"]
  /\ (forall g m g', Google.random_move demo (mk_board ["e2e4"; "d7d5"]) g = Some (m, g') ->
        m = "e4d5").
Proof.
  split; [reflexivity|]; split; [reflexivity|].
  intros g m g' H.
  destruct (proj2 (google_random_move_spec demo (mk_board ["e2e4"; "d7d5"]) g) m g' H)
    as [Hin [Hcap|Hnone]].
  - simpl in Hcap; apply String.eqb_eq; exact Hcap.
  - specialize (Hnone "e4d5" ltac:(simpl; tauto)); discriminate Hnone.
Qed.

(* ------------------------------------------------------------------ *)
(** * The root choice *)

(** C2: once the position is live and the depth at least 1, Google's
    [best_move] returns the first legal move whose child score is the
    largest when White is to move and the smallest when Black is to move
    (ties go to the earlier move).  ChatGPT's [best_move_minimax], past its
    book (two or more moves played), returns the first move of
    [order_moves] whose child score is the largest, whoever is to move: with
    Black to move it keeps the move best for White. *)
Theorem C2_root_choice :
  forall (R : Rules) (b : board) (depth : nat) (g : rng),
    moves_when_live R -> is_game_over R b = false -> (1 <= depth)%nat ->
    (exists m, Google.best_move R b depth = Some (Some m, b)
       /\ first_best (root_better Qle_bool (turn b)) (Google.child_score R b depth)
                     (legal_moves R b) m)
    /\ ((2 <= length (move_stack b))%nat ->
        exists m, ChatGPT.best_move_minimax R b depth g = Some (Some m, b, g)
          /\ first_best (root_better Z.leb WHITE) (ChatGPT.child_score R b depth)
                        (ChatGPT.order_moves R b) m).
Proof.
  intros R b depth g HR Ho _; split.
  - apply Google.best_move_first_best; assumption.
  - intros Hlen; apply ChatGPT.best_move_first_max; assumption.
Qed.

Lemma C2_witness :
  moves_when_live demo2 /\ is_game_over demo2 demo2_board = false /\
  (exists m, Google.best_move demo2 demo2_board 3 = Some (Some m, demo2_board)
     /\ first_best (root_better Qle_bool (turn demo2_board)) (Google.child_score demo2 demo2_board 3)
                   (legal_moves demo2 demo2_board) m)
  /\ exists m, ChatGPT.best_move_minimax demo2 demo2_board 4 (fun _ => O)
                 = Some (Some m, demo2_board, fun _ => O)
     /\ first_best (root_better Z.leb WHITE) (ChatGPT.child_score demo2 demo2_board 4)
                   (ChatGPT.order_moves demo2 demo2_board) m.
Proof.
  split; [exact demo2_live|]; split; [reflexivity|].
  destruct (C2_root_choice demo2 demo2_board 3 (fun _ => O) demo2_live eq_refl ltac:(lia)) as [H1 _].
  destruct (C2_root_choice demo2 demo2_board 4 (fun _ => O) demo2_live eq_refl ltac:(lia)) as [_ H2].
  split; [exact H1|apply H2; simpl; lia].
Defined.

(** C2 counterexample: with Black to move past the book, [d8h4] mates White
    (child score -100000) and [a7a6] draws (child score 0); ChatGPT's
    [best_move_minimax] keeps the larger score and returns [a7a6], while
    Google's [best_move] on the same position returns the mating [d8h4]. *)
Lemma C2_counterexample :
  is_game_over demo2 demo2_board = false /\ turn demo2_board = BLACK
  /\ (2 < fullmove_number demo2_board)%nat
  /\ ChatGPT.order_moves demo2 demo2_board = ["a7a6"; "d8h4"]
  /\ ChatGPT.child_score demo2 demo2_board 4 "a7a6" = Fin 0
  /\ ChatGPT.child_score demo2 demo2_board 4 "d8h4" = Fin (-100000)
  /\ option_map (fun r => fst (fst r)) (ChatGPT.best_move_minimax demo2 demo2_board 4 (fun _ => O))
     = Some (Some "a7a6")
  /\ option_map fst (Google.best_move demo2 demo2_board 3) = Some (Some "d8h4").
Proof.
  repeat split; vm_compute; reflexivity.
Qed.

(* ------------------------------------------------------------------ *)
(** * Further properties of the code *)

Lemma insert_desc_sorted {A} (key : A -> Z) x l :
  Sorted (fun a c => key c <= key a) l -> Sorted (fun a c => key c <= key a) (insert_desc key x l).
Proof.
  induction l as [|y l IH]; intros Hs; simpl.
  - repeat constructor.
  - inversion Hs as [|? ? Hl Hhd]; subst.
    destruct (Z.ltb_spec (key x) (key y)).
    + constructor; [apply IH; exact Hl|].
      destruct l as [|z l]; simpl; [constructor; lia|].
      inversion Hhd; subst.
      destruct (Z.ltb (key x) (key z)); constructor; lia.
    + constructor; [exact Hs|constructor; lia].
Qed.

Lemma sorted_desc_sorted {A} (key : A -> Z) l :
  Sorted (fun a c => key c <= key a) (sorted_desc key l).
Proof.
  induction l as [|x l IH]; simpl; [constructor|].
  apply insert_desc_sorted, IH.
Qed.

Lemma filter_insert_desc {A} (key : A -> Z) p x l :
  filter (fun m => Z.eqb (key m) p) (insert_desc key x l)
  = if Z.eqb (key x) p then x :: filter (fun m => Z.eqb (key m) p) l
    else filter (fun m => Z.eqb (key m) p) l.
Proof.
  induction l as [|y l IH]; simpl.
  - destruct (Z.eqb (key x) p); reflexivity.
  - destruct (Z.ltb_spec (key x) (key y)); simpl; [|reflexivity].
    rewrite IH.
    destruct (Z.eqb (key y) p) eqn:E1, (Z.eqb (key x) p) eqn:E2; try reflexivity.
    apply Z.eqb_eq in E1, E2; lia.
Qed.

Lemma filter_sorted_desc {A} (key : A -> Z) p l :
  filter (fun m => Z.eqb (key m) p) (sorted_desc key l) = filter (fun m => Z.eqb (key m) p) l.
Proof.
  induction l as [|x l IH]; simpl; [reflexivity|].
  rewrite filter_insert_desc, IH; reflexivity.
Qed.

(** X1: ChatGPT's [order_moves] returns the legal moves (a permutation),
    with non-increasing [move_priority]: checks (20) before captures (10)
    before the other moves (1); moves of equal priority keep the order of
    [board.legal_moves], as Python's stable [sorted(..., reverse=True)]. *)
Theorem X1_order_moves_stable_sort (R : Rules) (b : board) :
  Permutation (ChatGPT.order_moves R b) (legal_moves R b)
  /\ StronglySorted (fun m1 m2 => ChatGPT.move_priority R b m2 <= ChatGPT.move_priority R b m1)
                    (ChatGPT.order_moves R b)
  /\ forall p, filter (fun m => Z.eqb (ChatGPT.move_priority R b m) p) (ChatGPT.order_moves R b)
               = filter (fun m => Z.eqb (ChatGPT.move_priority R b m) p) (legal_moves R b).
Proof.
  split; [apply ChatGPT.order_moves_perm|split].
  - apply Sorted_StronglySorted; [intros x y z; lia|apply sorted_desc_sorted].
  - intros p; apply filter_sorted_desc.
Qed.

Lemma first_match_spec (test : string -> bool) (ts : list string) :
  let r := (fix scan (ts : list string) : option string :=
              match ts with [] => None | t :: ts' => if test t then Some t else scan ts' end) ts in
  (r = None <-> forall t, In t ts -> test t = false)
  /\ (forall t, r = Some t -> exists pre post, ts = (pre ++ t :: post)%list /\ test t = true
                              /\ forall t', In t' pre -> test t' = false).
Proof.
  induction ts as [|t0 ts IH]; cbv zeta in *; simpl.
  - split; [split; [intros _ t []|reflexivity]|discriminate].
  - destruct IH as [IH1 IH2]; destruct (test t0) eqn:E.
    + split.
      * split; [discriminate|]. intros H; rewrite (H t0 (or_introl eq_refl)) in E; discriminate.
      * intros t H; injection H as <-. exists [], ts; simpl; repeat split; [exact E|intros _ []].
    + split.
      * rewrite IH1; split.
        -- intros H t [<-|Hin]; [exact E|apply H, Hin].
        -- intros H t Hin; apply H; right; exact Hin.
      * intros t Ht; destruct (IH2 t Ht) as [pre [post [Heq [Hte Hpre]]]].
        exists (t0 :: pre), post; rewrite Heq; repeat split; [exact Hte|].
        intros t' [<-|Hin]; [exact E|apply Hpre, Hin].
Qed.

(** X2: Google's [get_termination] returns [None] exactly when none of the
    five tests holds, and otherwise the first name of [TERMINATIONS] whose
    test holds: every name before it fails. *)
Theorem X2_get_termination_first_match (R : Rules) (b : board) :
  (Google.get_termination R b = None
     <-> is_stalemate R b = false /\ is_insufficient_material R b = false
         /\ is_checkmate R b = false /\ can_claim_fifty_moves R b = false
         /\ can_claim_threefold_repetition R b = false)
  /\ forall t, Google.get_termination R b = Some t ->
     exists pre post, Google.TERMINATIONS = (pre ++ t :: post)%list
                      /\ Google.termination_test R t b = true
                      /\ forall t', In t' pre -> Google.termination_test R t' b = false.
Proof.
  destruct (first_match_spec (fun t => Google.termination_test R t b) Google.TERMINATIONS)
    as [H1 H2].
  split; [|exact H2].
  change (Google.get_termination R b) with
    ((fix scan (ts : list string) : option string :=
       match ts with [] => None
       | t :: ts' => if Google.termination_test R t b then Some t else scan ts' end)
     Google.TERMINATIONS).
  rewrite H1; simpl; split.
  - intros H.
    split; [exact (H "is_stalemate" ltac:(tauto))|].
    split; [exact (H "is_insufficient_material" ltac:(tauto))|].
    split; [exact (H "is_checkmate" ltac:(tauto))|].
    split; [exact (H "can_claim_fifty_moves" ltac:(tauto))|].
    exact (H "can_claim_threefold_repetition" ltac:(tauto)).
  - intros (Hs & Hi & Hc & Hf & Ht) t Hin.
    repeat (destruct Hin as [<-|Hin]; [assumption|]); contradiction.
Qed.

Lemma key_eqb_sym k k' : Google.key_eqb k k' = Google.key_eqb k' k.
Proof.
  destruct (Google.key_eqb k k') eqn:E, (Google.key_eqb k' k) eqn:E'; try reflexivity.
  - apply key_eqb_eq in E; subst; rewrite key_eqb_refl in E'; discriminate.
  - apply key_eqb_eq in E'; subst; rewrite key_eqb_refl in E; discriminate.
Qed.

Lemma counter_get_incr c k k' :
  Google.counter_get (Google.counter_incr c k) k'
  = (Google.counter_get c k' + if Google.key_eqb k k' then 1 else 0)%nat.
Proof.
  induction c as [|[k1 v] c IH]; simpl.
  - rewrite (key_eqb_sym k' k); destruct (Google.key_eqb k k'); reflexivity.
  - destruct (Google.key_eqb k k1) eqn:E; simpl.
    + apply key_eqb_eq in E; subst k1.
      rewrite (key_eqb_sym k k'); destruct (Google.key_eqb k' k); lia.
    + destruct (Google.key_eqb k' k1) eqn:E'.
      * apply key_eqb_eq in E'; subst k1; rewrite E; lia.
      * exact IH.
Qed.

Lemma run_simulation_fold games :
  forall acc,
  fold_left (fun stats '(result, termination) =>
               if Google.key_eqb termination (Some "is_checkmate")
               then Google.counter_incr stats (Some result)
               else Google.counter_incr stats termination) games acc
  = fold_left (fun stats gm => Google.counter_incr stats (stats_key gm)) games acc.
Proof.
  induction games as [|[r t] games IH]; intros acc; simpl; [reflexivity|].
  change (stats_key (r, t))
    with (if Google.key_eqb t (Some "is_checkmate") then Some r else t).
  destruct (Google.key_eqb t (Some "is_checkmate")); apply IH.
Qed.

Lemma counter_fold_counts games :
  forall acc k,
  Google.counter_get (fold_left (fun stats gm => Google.counter_incr stats (stats_key gm)) games acc) k
  = (Google.counter_get acc k
     + length (filter (fun gm => Google.key_eqb (stats_key gm) k) games))%nat.
Proof.
  induction games as [|gm games IH]; intros acc k; simpl; [lia|].
  rewrite IH, counter_get_incr.
  destruct (Google.key_eqb (stats_key gm) k); simpl; lia.
Qed.

Lemma run_simulation_counts games k :
  Google.counter_get (Google.run_simulation games) k
  = length (filter (fun gm => Google.key_eqb (stats_key gm) k) games).
Proof.
  unfold Google.run_simulation; rewrite run_simulation_fold, counter_fold_counts; reflexivity.
Qed.

(** X3: the [Counter] [run_simulation] builds counts, under every key, the
    games whose [stats_key] is that key (the result of a checkmate, the
    termination of any other game), and holds each key once. *)
Theorem X3_run_simulation_counts (games : list (string * option string)) (k : Google.key) :
  Google.counter_get (Google.run_simulation games) k
  = length (filter (fun gm => Google.key_eqb (stats_key gm) k) games)
  /\ NoDup (map fst (Google.run_simulation games)).
Proof. split; [apply run_simulation_counts|apply run_simulation_ok]. Qed.

Lemma stats_key_win games r0 :
  (forall gm, In gm games -> snd gm = None \/ exists t, snd gm = Some t /\ In t Google.TERMINATIONS) ->
  r0 = "1-0" \/ r0 = "0-1" ->
  Google.counter_get (Google.run_simulation games) (Some r0) = mates_count r0 games.
Proof.
  intros Hg Hr; rewrite run_simulation_counts; unfold mates_count; f_equal.
  apply filter_ext_in; intros [r t] Hin; specialize (Hg _ Hin); simpl in Hg.
  unfold stats_key.
  destruct (Google.key_eqb t (Some "is_checkmate")) eqn:E; simpl; [reflexivity|].
  destruct Hg as [->|[s [-> Hs]]]; [reflexivity|]; simpl.
  simpl in Hs; destruct Hr as [->| ->];
    repeat (destruct Hs as [<-|Hs]; [reflexivity|]); contradiction.
Qed.

(** X4: for games whose terminations are [None] or names of [TERMINATIONS]
    (as [play_game] reports them), [calculate_win_rate] of their [Counter]
    raises exactly when there are no games; otherwise the White rate counts
    the checkmates with result [1-0], the Black rate those with [0-1], and
    the draw rate every other game, each over the number of games times 100. *)
Theorem X4_calculate_win_rate_of_games (games : list (string * option string)) :
  (forall gm, In gm games -> snd gm = None \/ exists t, snd gm = Some t /\ In t Google.TERMINATIONS) ->
  (Google.calculate_win_rate (Google.run_simulation games) = None <-> games = [])
  /\ (games <> [] ->
      Google.calculate_win_rate (Google.run_simulation games)
      = Some ((inject_Z (Z.of_nat (mates_count "1-0" games))
                 / inject_Z (Z.of_nat (length games)) * 100)%Q,
              (inject_Z (Z.of_nat (mates_count "0-1" games))
                 / inject_Z (Z.of_nat (length games)) * 100)%Q,
              (inject_Z (Z.of_nat (length games - mates_count "1-0" games - mates_count "0-1" games))
                 / inject_Z (Z.of_nat (length games)) * 100)%Q)).
Proof.
  intros Hg.
  destruct (run_simulation_ok games) as [Hnd Htot].
  pose proof (counter_partition _ (Some "1-0") (Some "0-1") Hnd ltac:(discriminate)) as Hp.
  rewrite Htot, (stats_key_win games "1-0" Hg (or_introl eq_refl)),
    (stats_key_win games "0-1" Hg (or_intror eq_refl)) in Hp.
  unfold Google.calculate_win_rate.
  rewrite (stats_key_win games "1-0" Hg (or_introl eq_refl)),
    (stats_key_win games "0-1" Hg (or_intror eq_refl)).
  revert Hp.
  generalize (fold_right plus 0%nat
       (map snd (filter (fun '(term, _) =>
                           negb (Google.key_eqb term (Some "1-0") || Google.key_eqb term (Some "0-1")))
                        (Google.run_simulation games)))) as D.
  intros D Hp; rewrite Hp.
  replace D with (length games - mates_count "1-0" games - mates_count "0-1" games)%nat by lia.
  split.
  - destruct games as [|gm gs]; simpl; split; intros H; congruence.
  - intros Hne; destruct games as [|gm gs]; [congruence|reflexivity].
Qed.

Lemma X4_witness :
  (forall gm, In gm [("1-0", Some "is_checkmate"); ("1/2-1/2", Some "is_stalemate")] ->
     snd gm = None \/ exists t, snd gm = Some t /\ In t Google.TERMINATIONS)
  /\ Google.calculate_win_rate
       (Google.run_simulation [("1-0", Some "is_checkmate"); ("1/2-1/2", Some "is_stalemate")])
     = Some ((inject_Z 1 / inject_Z 2 * 100)%Q, (inject_Z 0 / inject_Z 2 * 100)%Q,
             (inject_Z 1 / inject_Z 2 * 100)%Q).
Proof.
  assert (Hg : forall gm, In gm [("1-0", Some "is_checkmate"); ("1/2-1/2", Some "is_stalemate")] ->
                 snd gm = None \/ exists t, snd gm = Some t /\ In t Google.TERMINATIONS).
  { intros gm [<-|[<-|[]]]; right; eexists; split; try reflexivity; simpl; tauto. }
  split; [exact Hg|].
  exact (proj2 (X4_calculate_win_rate_of_games _ Hg) ltac:(discriminate)).
Defined.

Section Window.

Variable V : Type.
Variable le : V -> V -> bool.
Hypothesis le_refl : forall x, le x x = true.
Hypothesis le_trans : forall x y z, le x y = true -> le y z = true -> le x z = true.
Hypothesis le_total : forall x y, le x y = false -> le y x = true.

Lemma agree_window a c v m :
  ext_lt le a c = true -> agree le a c v m ->
  (ext_le le m a = true -> ext_le le v a = true)
  /\ (ext_le le c m = true -> ext_le le c v = true)
  /\ (ext_lt le a m = true -> ext_lt le m c = true -> ext_eqv le v m = true).
Proof.
  pose proof (ext_le_refl V le le_refl) as Rf.
  pose proof (ext_le_trans V le le_trans) as Tr.
  pose proof (ext_le_total V le le_total) as To.
  pose proof (ext_lt_le_trans V le le_trans) as LtLe.
  pose proof (ext_lt_le V le le_total) as Ltle.
  intros Hac H.
  assert (Hc : ext_le le c v = ext_le le c m) by (apply H; [exact Hac|apply Rf]).
  split; [|split].
  - intros Hma; destruct (ext_le le v a) eqn:Eva; [reflexivity|].
    assert (Hav : ext_lt le a v = true) by (unfold ext_lt; rewrite Eva; reflexivity).
    destruct (ext_le le v c) eqn:Evc.
    + pose proof (H v Hav Evc) as Hv; rewrite Rf in Hv.
      rewrite (Tr _ _ _ (eq_sym Hv) Hma) in Eva; discriminate.
    + rewrite (To _ _ Evc) in Hc.
      pose proof (Tr _ _ _ (eq_sym Hc) Hma) as Hca.
      unfold ext_lt in Hac; rewrite Hca in Hac; discriminate.
  - intros Hcm; rewrite Hc; exact Hcm.
  - intros Ham Hmc.
    assert (Hmv : ext_le le m v = true) by (rewrite (H m Ham (Ltle _ _ Hmc)); apply Rf).
    unfold ext_eqv; rewrite Hmv, andb_true_r.
    destruct (ext_le le v m) eqn:Evm; [reflexivity|].
    destruct (ext_le le v c) eqn:Evc.
    + pose proof (H v (LtLe _ _ _ Ham Hmv) Evc) as Hv; rewrite Rf in Hv; congruence.
    + rewrite (To _ _ Evc) in Hc.
      unfold ext_lt in Hmc; rewrite <- Hc in Hmc; discriminate.
Qed.

Lemma fold_max_in l acc : In (fold_left (py_max le) l acc) (acc :: l).
Proof.
  revert acc; induction l as [|x l IH]; intros acc; simpl; [left; reflexivity|].
  destruct (IH (py_max le acc x)) as [H|H]; [|right; right; exact H].
  assert (E : py_max le acc x = acc \/ py_max le acc x = x)
    by (unfold py_max; destruct (ext_lt le acc x); tauto).
  rewrite <- H; destruct E as [E|E]; rewrite E; simpl; tauto.
Qed.

Lemma fold_min_in l acc : In (fold_left (py_min le) l acc) (acc :: l).
Proof.
  revert acc; induction l as [|x l IH]; intros acc; simpl; [left; reflexivity|].
  destruct (IH (py_min le acc x)) as [H|H]; [|right; right; exact H].
  assert (E : py_min le acc x = acc \/ py_min le acc x = x)
    by (unfold py_min; destruct (ext_lt le x acc); tauto).
  rewrite <- H; destruct E as [E|E]; rewrite E; simpl; tauto.
Qed.

End Window.

Lemma fin_in_tail {V} (r acc : ext V) l :
  is_fin r = true -> is_fin acc = false -> In r (acc :: l) -> In r l.
Proof. intros Hr Ha [<-|H]; [congruence|exact H]. Qed.

Lemma chatgpt_exhaustive_line R (HR : moves_when_live R) depth :
  forall b is_max, exists ms, (length ms <= depth)%nat /\ legal_line R b ms
    /\ ChatGPT.exhaustive_minimax R b depth is_max = Fin (ChatGPT.evaluate_board R (play_line b ms)).
Proof.
  induction depth as [|d IH]; intros b is_max.
  - exists []; simpl; split; [lia|split; [exact I|reflexivity]].
  - pose proof (ChatGPT.exhaustive_fin R HR (S d) b is_max) as Hf.
    simpl in Hf |- *; destruct (is_game_over R b) eqn:Ho.
    + exists []; simpl; split; [lia|split; [exact I|reflexivity]].
    + set (F := fun m => ChatGPT.exhaustive_minimax R (push m b) d (negb is_max)) in *.
      assert (Hr : In (if is_max then fold_left (py_max Z.leb) (map F (legal_moves R b)) NegInf
                       else fold_left (py_min Z.leb) (map F (legal_moves R b)) PosInf)
                      (map F (legal_moves R b))).
      { destruct is_max.
        - apply (fin_in_tail _ NegInf); [exact Hf|reflexivity|].
          apply fold_max_in.
        - apply (fin_in_tail _ PosInf); [exact Hf|reflexivity|].
          apply fold_min_in. }
      apply in_map_iff in Hr as [m [Hm Hl]].
      destruct (IH (push m b) (negb is_max)) as [ms [Hlen [Hline Heq]]].
      exists (m :: ms); simpl; split; [lia|split; [auto|]].
      rewrite <- Hm; exact Heq.
Qed.

Lemma google_exhaustive_line R (HR : moves_when_live R) depth :
  forall b maximizing, exists ms, (length ms <= depth)%nat /\ legal_line R b ms
    /\ Google.exhaustive_minimax R b depth maximizing = Fin (Google.evaluate_board R (play_line b ms)).
Proof.
  induction depth as [|d IH]; intros b maximizing.
  - exists []; simpl; split; [lia|split; [exact I|reflexivity]].
  - pose proof (Google.exhaustive_value_fin R HR (S d) b maximizing) as Hf.
    destruct (is_game_over R b) eqn:Ho.
    + exists []; simpl; rewrite Ho; split; [lia|split; [exact I|reflexivity]].
    + assert (Hr : exists flag,
                 In (Google.exhaustive_minimax R b (S d) maximizing)
                    (map (fun m => Google.exhaustive_minimax R (push m b) d flag) (legal_moves R b))).
      { destruct maximizing; [exists false|exists true]; simpl in Hf |- *; rewrite Ho in Hf |- *.
        - apply (fin_in_tail _ NegInf); [exact Hf|reflexivity|].
          apply fold_max_in.
        - apply (fin_in_tail _ PosInf); [exact Hf|reflexivity|].
          apply fold_min_in. }
      destruct Hr as [flag Hr]; apply in_map_iff in Hr as [m [Hm Hl]].
      destruct (IH (push m b) flag) as [ms [Hlen [Hline Heq]]].
      exists (m :: ms); split; [simpl; lia|split; [simpl; auto|]].
      rewrite <- Hm; exact Heq.
Qed.

(** X5: ChatGPT's [minimax] with a window [alpha < beta] is fail-soft
    alpha-beta: it restores the board, returns at most [alpha] when the
    exhaustive value is at most [alpha], at least [beta] when it is at least
    [beta], and the exhaustive value itself when it lies strictly inside. *)
Theorem X5_chatgpt_minimax_window (R : Rules) (b : board) (depth : nat) (alpha beta : ext Z)
    (is_max : bool) :
  ext_lt Z.leb alpha beta = true ->
  exists v, ChatGPT.minimax R b depth alpha beta is_max = Some (v, b)
  /\ (ext_le Z.leb (ChatGPT.exhaustive_minimax R b depth is_max) alpha = true ->
      ext_le Z.leb v alpha = true)
  /\ (ext_le Z.leb beta (ChatGPT.exhaustive_minimax R b depth is_max) = true ->
      ext_le Z.leb beta v = true)
  /\ (ext_lt Z.leb alpha (ChatGPT.exhaustive_minimax R b depth is_max) = true ->
      ext_lt Z.leb (ChatGPT.exhaustive_minimax R b depth is_max) beta = true ->
      v = ChatGPT.exhaustive_minimax R b depth is_max).
Proof.
  intros Hab.
  destruct (ChatGPT.minimax_agree R depth b alpha beta is_max Hab) as [v [Hv Hag]].
  destruct (agree_window Z Z.leb Z.leb_refl Zleb_trans Zleb_total _ _ _ _ Hab Hag)
    as [H1 [H2 H3]].
  exists v; split; [exact Hv|split; [exact H1|split; [exact H2|]]].
  intros Ha Hb; apply zeqv_eq, H3; assumption.
Qed.

Lemma X5_witness :
  ext_lt Z.leb (Fin 0) (Fin 10) = true
  /\ exists v, ChatGPT.minimax demo start 3 (Fin 0) (Fin 10) true = Some (v, start)
               /\ ext_le Z.leb (Fin 10) v = true.
Proof.
  split; [reflexivity|].
  destruct (X5_chatgpt_minimax_window demo start 3 (Fin 0) (Fin 10) true eq_refl)
    as [v [Hv [_ [H2 _]]]].
  exists v; split; [exact Hv|apply H2; vm_compute; reflexivity].
Defined.

(** X6: Google's [minimax] with a window [alpha < beta] is fail-soft
    alpha-beta: it restores the board, returns at most [alpha] when the
    exhaustive value is at most [alpha], at least [beta] when it is at least
    [beta], and a value equal to it when it lies strictly inside. *)
Theorem X6_google_minimax_window (R : Rules) (b : board) (depth : nat) (alpha beta : ext Q)
    (maximizing : bool) :
  ext_lt Qle_bool alpha beta = true ->
  exists v, Google.minimax R b depth alpha beta maximizing = Some (v, b)
  /\ (ext_le Qle_bool (Google.exhaustive_minimax R b depth maximizing) alpha = true ->
      ext_le Qle_bool v alpha = true)
  /\ (ext_le Qle_bool beta (Google.exhaustive_minimax R b depth maximizing) = true ->
      ext_le Qle_bool beta v = true)
  /\ (ext_lt Qle_bool alpha (Google.exhaustive_minimax R b depth maximizing) = true ->
      ext_lt Qle_bool (Google.exhaustive_minimax R b depth maximizing) beta = true ->
      qext_eq v (Google.exhaustive_minimax R b depth maximizing)).
Proof.
  intros Hab.
  destruct (Google.search_agree R depth b alpha beta maximizing Hab) as [v [Hv Hag]].
  destruct (agree_window Q Qle_bool Qleb_refl Qleb_trans Qleb_total _ _ _ _ Hab Hag)
    as [H1 [H2 H3]].
  exists v; split; [exact Hv|split; [exact H1|split; [exact H2|]]].
  intros Ha Hb; apply qeqv_eq, H3; assumption.
Qed.

Lemma X6_witness :
  ext_lt Qle_bool (Fin 0%Q) (Fin 1%Q) = true
  /\ exists v, Google.minimax demo start 3 (Fin 0%Q) (Fin 1%Q) true = Some (v, start)
               /\ ext_le Qle_bool (Fin 1%Q) v = true.
Proof.
  split; [reflexivity|].
  destruct (X6_google_minimax_window demo start 3 (Fin 0%Q) (Fin 1%Q) true eq_refl)
    as [v [Hv [_ [H2 _]]]].
  exists v; split; [exact Hv|apply H2; vm_compute; reflexivity].
Defined.

(** X7: when every live position has a legal move, ChatGPT's full-window
    [minimax] score is finite: it is [evaluate_board] of a position reached
    from the board by a line of at most [depth] legal moves. *)
Theorem X7_chatgpt_score_is_a_leaf (R : Rules) (b : board) (depth : nat) (is_max : bool) :
  moves_when_live R ->
  exists ms, (length ms <= depth)%nat /\ legal_line R b ms
  /\ ChatGPT.minimax R b depth NegInf PosInf is_max
     = Some (Fin (ChatGPT.evaluate_board R (play_line b ms)), b).
Proof.
  intros HR.
  destruct (chatgpt_exhaustive_line R HR depth b is_max) as [ms [Hlen [Hline Heq]]].
  exists ms; split; [exact Hlen|split; [exact Hline|]].
  rewrite ChatGPT.minimax_full_window, Heq; reflexivity.
Qed.

Lemma X7_witness :
  moves_when_live demo
  /\ exists ms, (length ms <= 3)%nat /\ legal_line demo start ms
     /\ ChatGPT.minimax demo start 3 NegInf PosInf true
        = Some (Fin (ChatGPT.evaluate_board demo (play_line start ms)), start).
Proof.
  split; [exact demo_live|].
  exact (X7_chatgpt_score_is_a_leaf demo start 3 true demo_live).
Defined.

(** X8: when every live position has a legal move, Google's full-window
    [minimax] score is finite: it equals [evaluate_board] of a position
    reached from the board by a line of at most [depth] legal moves. *)
Theorem X8_google_score_is_a_leaf (R : Rules) (b : board) (depth : nat) (maximizing : bool) :
  moves_when_live R ->
  exists ms q, (length ms <= depth)%nat /\ legal_line R b ms
  /\ Google.minimax R b depth NegInf PosInf maximizing = Some (Fin q, b)
  /\ (q == Google.evaluate_board R (play_line b ms))%Q.
Proof.
  intros HR.
  destruct (google_exhaustive_line R HR depth b maximizing) as [ms [Hlen [Hline Heq]]].
  destruct (Google.search_agree R depth b NegInf PosInf maximizing eq_refl) as [v [Hv Hag]].
  assert (Hq : qext_eq v (Google.exhaustive_minimax R b depth maximizing))
    by (apply qeqv_eq, agree_full; auto; qorder).
  rewrite Heq in Hq.
  destruct v as [|q|]; simpl in Hq; try contradiction.
  exists ms, q; split; [exact Hlen|split; [exact Hline|split; [exact Hv|exact Hq]]].
Qed.

Lemma X8_witness :
  moves_when_live demo
  /\ exists ms q, (length ms <= 3)%nat /\ legal_line demo start ms
     /\ Google.minimax demo start 3 NegInf PosInf true = Some (Fin q, start)
     /\ (q == Google.evaluate_board demo (play_line start ms))%Q.
Proof.
  split; [exact demo_live|].
  exact (X8_google_score_is_a_leaf demo start 3 true demo_live).
Defined.

Lemma game_loop_moves R white black b g b' g' n :
  game_loop R white black b g b' g' n ->
  exists played, move_stack b' = (move_stack b ++ played)%list /\ length played = n /\
  forall i m, nth_error played i = Some m ->
    is_game_over R (mk_board (move_stack b ++ firstn i played)) = false
    /\ exists gi gi',
         (if Bool.eqb (turn (mk_board (move_stack b ++ firstn i played))) WHITE then white else black)
           (mk_board (move_stack b ++ firstn i played)) gi = Some (m, gi').
Proof.
  induction 1 as [b g Hover | b g m g1 b' g' n Hlive Hstep Hrun IH].
  - exists []; split; [rewrite app_nil_r; reflexivity|split; [reflexivity|]].
    intros [|i] m H; discriminate.
  - destruct IH as [played [Hst [Hlen Hp]]].
    simpl in Hst; rewrite <- app_assoc in Hst; simpl in Hst.
    exists (m :: played); split; [exact Hst|split; [simpl; lia|]].
    intros [|i] m' H; simpl in H.
    + injection H as <-; cbn [firstn]; rewrite !app_nil_r.
      replace (mk_board (move_stack b)) with b by (destruct b; reflexivity).
      split; [exact Hlive|exists g, g1].
      destruct (Bool.eqb (turn b) WHITE); exact Hstep.
    + destruct (Hp i m' H) as [Ho Hs].
      cbn [firstn push move_stack] in Ho, Hs |- *.
      replace (move_stack b ++ m :: firstn i played)%list
        with ((move_stack b ++ [m]) ++ firstn i played)%list
        by (rewrite <- app_assoc; reflexivity).
      split; [exact Ho|exact Hs].
Qed.

Lemma game_loop_from_start R white black g b' g' n :
  game_loop R white black start g b' g' n ->
  length (move_stack b') = n /\
  forall i m, nth_error (move_stack b') i = Some m ->
    is_game_over R (mk_board (firstn i (move_stack b'))) = false
    /\ exists gi gi', (if Nat.even i then white else black)
                        (mk_board (firstn i (move_stack b'))) gi = Some (m, gi').
Proof.
  intros H; destruct (game_loop_moves _ _ _ _ _ _ _ _ H) as [played [Hst [Hlen Hp]]].
  simpl in Hst; rewrite Hst; split; [exact Hlen|].
  intros i m Hi; destruct (Hp i m Hi) as [Ho [gi [gi' Hs]]].
  assert (Hlt : (i < length played)%nat) by (apply nth_error_Some; congruence).
  split; [exact Ho|exists gi, gi'].
  unfold turn in Hs; simpl in Hs; rewrite length_firstn in Hs.
  replace (Nat.min i (length played)) with i in Hs by lia.
  destruct (Nat.even i); exact Hs.
Qed.

(** X9: in a finished game of [play_game]'s loop from the start position,
    move [i] of the final stack was returned by the White strategy when [i]
    is even and by the Black strategy when [i] is odd, called on the board
    of the first [i] moves, which was not over. *)
Theorem X9_strategies_alternate (R : Rules) (white black : strategy) (g g' : rng) (b' : board)
    (n : nat) :
  game_loop R white black start g b' g' n ->
  forall i m, nth_error (move_stack b') i = Some m ->
    is_game_over R (mk_board (firstn i (move_stack b'))) = false
    /\ exists gi gi', (if Nat.even i then white else black)
                        (mk_board (firstn i (move_stack b'))) gi = Some (m, gi').
Proof. intros H; exact (proj2 (game_loop_from_start _ _ _ _ _ _ _ H)). Qed.

Lemma X9_witness :
  exists b' g', game_loop demo (Google.random_move demo) (Google.random_move demo)
                  start (fun _ => O) b' g' 3
                /\ forall m, nth_error (move_stack b') 1 = Some m ->
                   exists gi gi', Google.random_move demo (mk_board (firstn 1 (move_stack b'))) gi
                                  = Some (m, gi').
Proof.
  destruct demo_random_run as [b' [g' [H _]]].
  exists b', g'; split; [exact H|].
  intros m Hm; exact (proj2 (X9_strategies_alternate _ _ _ _ _ _ _ H 1 m Hm)).
Defined.

Lemma chatgpt_random_legal R : returns_legal R (ChatGPT.random_move R).
Proof. intros b g m g' H; exact (ChatGPT.choice_in _ _ _ _ H). Qed.

Lemma google_random_legal R : returns_legal R (Google.random_move R).
Proof. intros b g m g' H; exact (proj1 (proj2 (google_random_move_spec R b g) m g' H)). Qed.

(** X10: both [random_move] functions only return legal moves, and when
    both strategies only return legal moves every move of a finished game
    was legal in the position it was played in. *)
Theorem X10_legal_strategies_play_legal_games (R : Rules) :
  returns_legal R (ChatGPT.random_move R) /\ returns_legal R (Google.random_move R)
  /\ forall (white black : strategy) (g g' : rng) (b' : board) (n : nat),
       returns_legal R white -> returns_legal R black ->
       game_loop R white black start g b' g' n ->
       forall i m, nth_error (move_stack b') i = Some m ->
         In m (legal_moves R (mk_board (firstn i (move_stack b')))).
Proof.
  split; [apply chatgpt_random_legal|split; [apply google_random_legal|]].
  intros white black g g' b' n Hw Hb H i m Hi.
  destruct (proj2 (game_loop_from_start _ _ _ _ _ _ _ H) i m Hi) as [_ [gi [gi' Hs]]].
  destruct (Nat.even i); [exact (Hw _ _ _ _ Hs)|exact (Hb _ _ _ _ Hs)].
Qed.

Lemma X10_witness :
  exists b' g', game_loop demo (Google.random_move demo) (ChatGPT.random_move demo)
                  start (fun _ => O) b' g' 3
                /\ forall i m, nth_error (move_stack b') i = Some m ->
                   In m (legal_moves demo (mk_board (firstn i (move_stack b')))).
Proof.
  destruct (X10_legal_strategies_play_legal_games demo) as [Hc [Hg Hplay]].
  assert (Hrun : exists b' g', game_loop demo (Google.random_move demo) (ChatGPT.random_move demo)
                                 start (fun _ => O) b' g' 3).
  { eexists _, _.
    eapply loop_ply; [reflexivity|cbv; reflexivity|].
    eapply loop_ply; [reflexivity|cbv; reflexivity|].
    eapply loop_ply; [reflexivity|cbv; reflexivity|].
    apply loop_over; reflexivity. }
  destruct Hrun as [b' [g' H]]; exists b', g'; split; [exact H|].
  exact (Hplay _ _ _ _ _ _ Hg Hc H).
Defined.

(** X11: in a position without legal moves both [random_move] functions
    raise, Google's [best_move] and (past the book) ChatGPT's
    [best_move_minimax] return [None] as the move, and if the position is
    not over a search of depth at least 1 returns [-inf] for the maximizer
    and [+inf] for the minimizer. *)
Theorem X11_no_legal_moves (R : Rules) (b : board) (depth : nat) (g : rng) (alpha beta : ext Z)
    (alpha' beta' : ext Q) :
  legal_moves R b = [] ->
  ChatGPT.random_move R b g = None
  /\ Google.random_move R b g = None
  /\ Google.best_move R b depth = Some (None, b)
  /\ ((2 <= length (move_stack b))%nat -> ChatGPT.best_move_minimax R b depth g = Some (None, b, g))
  /\ (is_game_over R b = false ->
      ChatGPT.minimax R b (S depth) alpha beta true = Some (NegInf, b)
      /\ ChatGPT.minimax R b (S depth) alpha beta false = Some (PosInf, b)
      /\ Google.minimax R b (S depth) alpha' beta' true = Some (NegInf, b)
      /\ Google.minimax R b (S depth) alpha' beta' false = Some (PosInf, b)).
Proof.
  intros Hl.
  assert (Ho : ChatGPT.order_moves R b = []).
  { pose proof (ChatGPT.order_moves_perm R b) as Hp; rewrite Hl in Hp.
    apply Permutation_nil, Permutation_sym, Hp. }
  split; [unfold ChatGPT.random_move; rewrite Hl; reflexivity|].
  split; [unfold Google.random_move; rewrite Hl; reflexivity|].
  split; [unfold Google.best_move; rewrite Hl; reflexivity|].
  split.
  - intros Hlen; rewrite (ChatGPT.best_move_after_book R b depth g Hlen), Ho; reflexivity.
  - intros Hover; simpl; rewrite Hover, Ho, Hl; repeat split.
Qed.

Lemma X11_witness :
  legal_moves demo (mk_board ["e2e4"; "d7d5"; "e4d5"]) = []
  /\ Google.best_move demo (mk_board ["e2e4"; "d7d5"; "e4d5"]) 2
     = Some (None, mk_board ["e2e4"; "d7d5"; "e4d5"])
  /\ ChatGPT.best_move_minimax demo (mk_board ["e2e4"; "d7d5"; "e4d5"]) 2 (fun _ => O)
     = Some (None, mk_board ["e2e4"; "d7d5"; "e4d5"], fun _ => O).
Proof.
  destruct (X11_no_legal_moves demo (mk_board ["e2e4"; "d7d5"; "e4d5"]) 2 (fun _ => O)
              NegInf PosInf NegInf PosInf eq_refl) as [_ [_ [H3 [H4 _]]]].
  split; [reflexivity|split; [exact H3|apply H4; simpl; lia]].
Defined.

Lemma py_sum_perm l l' : Permutation l l' -> py_sum l = py_sum l'.
Proof. unfold py_sum; induction 1; simpl; lia. Qed.

Lemma py_sum_opp_map {A} (f : A -> Z) l : py_sum (map (fun x => - f x) l) = - py_sum (map f l).
Proof. unfold py_sum; induction l as [|x l IH]; simpl; lia. Qed.

(** X13: ChatGPT's [evaluate_board] is not antisymmetric: the scores of a
    position and of its colour swap sum to 0 when it is terminal and to
    [10] per legal move otherwise, since the mobility bonus [5 * n] is added
    whichever side is to move. *)
Theorem X13_chatgpt_evaluation_swap (R : Rules) (sigma : nat -> nat) (b b' : board) :
  colour_swapped R sigma b b' ->
  ChatGPT.evaluate_board R b' + ChatGPT.evaluate_board R b
  = if is_checkmate R b || is_stalemate R b || is_insufficient_material R b then 0
    else 10 * Z.of_nat (length (legal_moves R b)).
Proof.
  intros (Hp & Ht & Hm & Hst & Hin & Hl & Hc & Hpa).
  unfold ChatGPT.evaluate_board; rewrite Hm, Hst, Hin, Ht, Hl.
  destruct (is_checkmate R b); [destruct (turn b); reflexivity|].
  cbn [orb]; destruct (is_stalemate R b || is_insufficient_material R b); [reflexivity|].
  cbv zeta.
  set (f := fun square =>
              match piece_at R b square with
              | Some p => ChatGPT.piece_values (piece_kind p)
                          * (if Bool.eqb (piece_color p) WHITE then 1 else -1)
              | None => 0
              end).
  assert (Hmat : py_sum (map (fun square =>
              match piece_at R b' square with
              | Some p => ChatGPT.piece_values (piece_kind p)
                          * (if Bool.eqb (piece_color p) WHITE then 1 else -1)
              | None => 0
              end) SQUARES) = - py_sum (map f SQUARES)).
  { rewrite (map_ext_in _ (fun sq => - f (sigma sq))).
    - rewrite py_sum_opp_map, <- (map_map sigma f).
      rewrite (py_sum_perm _ _ (Permutation_map f Hp)); reflexivity.
    - intros sq _; rewrite Hpa; unfold f.
      destruct (piece_at R b (sigma sq)) as [[k c]|]; simpl; [|reflexivity].
      destruct c; simpl; lia. }
  rewrite Hmat; lia.
Qed.

Lemma X13_witness :
  colour_swapped swapdemo (fun sq => sq) start (mk_board ["e2e4"])
  /\ ChatGPT.evaluate_board swapdemo (mk_board ["e2e4"]) + ChatGPT.evaluate_board swapdemo start = 10.
Proof.
  split; [exact swapdemo_swapped|].
  exact (X13_chatgpt_evaluation_swap swapdemo (fun sq => sq) start (mk_board ["e2e4"])
           swapdemo_swapped).
Defined.
